(** * AutoCodebaseIndex: the chunk splitter, the file summarizer and the
      directory walker of [auto_codebase_indexer.py], embedded in Rocq.

    Python values are modelled as follows.
    - A [str] is the list of its Unicode code points ([N]); [len] counts
      code points, as Python does.
    - An [int] is a [Z].
    - A raised exception is the [Raise] constructor of [result].
    - The language-model collaborator and the file system are the fields
      of a [world] that the summarizer and the walker take as argument. *)

From Stdlib Require Import ZArith NArith String Ascii List QArith Lia.
From Stdlib Require Import DecimalString.
From stdpp Require Import base list sorting.

Local Open Scope Z_scope.

(** ** Strings *)

Definition codepoint := N.
Definition str := list codepoint.

(** An ASCII literal as a [str]. *)
Definition u (s : string) : str := map N_of_ascii (list_ascii_of_string s).
Arguments u : simpl never.

Definition len (s : str) : Z := Z.of_nat (length s).

Definition newline : codepoint := 10%N.
Definition is_newline (c : codepoint) : bool := (c =? newline)%N.

(** [str.isspace] on one code point: the code points that [str.strip()]
    removes. *)
Definition isspace (c : codepoint) : bool :=
  ((0x09 <=? c) && (c <=? 0x0D) || (0x1C <=? c) && (c <=? 0x20)
   || (c =? 0x85) || (c =? 0xA0) || (c =? 0x1680)
   || (0x2000 <=? c) && (c <=? 0x200A)
   || (c =? 0x2028) || (c =? 0x2029) || (c =? 0x202F) || (c =? 0x205F)
   || (c =? 0x3000))%N.

Fixpoint lstrip (s : str) : str :=
  match s with
  | c :: s' => if isspace c then lstrip s' else s
  | [] => []
  end.

Definition rstrip (s : str) : str := rev (lstrip (rev s)).

(** [s.strip()] *)
Definition strip (s : str) : str := rstrip (lstrip s).

(** [s.lower()] on the ASCII letters.  Outside ['A'..'Z'] the code point is
    kept; no other code point has ['.'], ['p'] or ['y'] in its lower-case
    mapping, so [lower ext = u ".py"] decides [ext.lower() == ".py"] for
    every Python string. *)
Definition lower_codepoint (c : codepoint) : codepoint :=
  if ((0x41 <=? c) && (c <=? 0x5A))%N then (c + 32)%N else c.

Definition lower (s : str) : str := map lower_codepoint s.

(** [sep.join(l)] *)
Fixpoint join (sep : str) (l : list str) : str :=
  match l with
  | [] => []
  | [s] => s
  | s :: rest => s ++ sep ++ join sep rest
  end.

(** ** Exceptions, [range] and slices *)

Inductive exn : Type :=
| ValueError
| RecursionError.

Inductive result (A : Type) : Type :=
| Ok (a : A)
| Raise (e : exn).
Arguments Ok {A} a.
Arguments Raise {A} e.

#[global] Instance exn_eq_dec : EqDecision exn.
Proof. solve_decision. Defined.

#[global] Instance result_eq_dec {A : Type} `{EqDecision A} :
  EqDecision (result A).
Proof. solve_decision. Defined.

(** [len(range(start, stop, step))] for a non-zero step. *)
Definition range_length (start stop step : Z) : Z :=
  if 0 <? step
  then (if start <? stop then (stop - start - 1) / step + 1 else 0)
  else (if stop <? start then (start - stop - 1) / (- step) + 1 else 0).

(** [list(range(start, stop, step))]; a zero step raises [ValueError]. *)
Definition py_range (start stop step : Z) : result (list Z) :=
  if step =? 0 then Raise ValueError
  else Ok (map (fun k => start + Z.of_nat k * step)
               (seq 0 (Z.to_nat (range_length start stop step)))).

(** A slice bound brought into [0 .. len]. *)
Definition clamp_index (n i : Z) : Z :=
  if i <? 0 then Z.max 0 (i + n) else Z.min i n.

(** [s[i:j]] *)
Definition slice (s : str) (i j : Z) : str :=
  let a := clamp_index (len s) i in
  let b := clamp_index (len s) j in
  take (Z.to_nat (b - a)) (drop (Z.to_nat a) s).

(** ** The chunk splitter *)

(** The pattern [(?=^(def |class ))] with [re.MULTILINE], tried at one
    position: [bol] says whether the position is at the start of the text
    or right after a newline, [s] is the text from the position on.  The
    match is empty; the result is what group 1 captured. *)
Definition match_boundary (bol : bool) (s : str) : option str :=
  if bol then
    if bool_decide (take 4 s = u "def ") then Some (u "def ")
    else if bool_decide (take 6 s = u "class ") then Some (u "class ")
    else None
  else None.

(** [pattern.split]: the scan keeps in [seg] the text since the last match.
    At every position where the pattern matches, [re.split] emits the
    segment before the match and then the text of each capturing group of
    the pattern, and goes on one position further (the match is empty).
    After the last match it emits the rest. *)
Fixpoint split_scan (bol : bool) (seg : str) (s : str) : list str :=
  match s with
  | [] => [seg]
  | c :: s' =>
      match match_boundary bol s with
      | Some g => seg :: g :: split_scan (is_newline c) [c] s'
      | None => split_scan (is_newline c) (seg ++ [c]) s'
      end
  end.

Definition pattern_split (s : str) : list str := split_scan true [] s.

(** [for i in range(0, len(s), n): chunks.append(s[i:i + n])] *)
Definition fixed_size_chunks (s : str) (n : Z) : result (list str) :=
  match py_range 0 (len s) n with
  | Ok idxs => Ok (map (fun i => slice s i (i + n)) idxs)
  | Raise e => Raise e
  end.

(** The loop over [parts] of the [.py] branch; [chunks] is the list built
    so far. *)
Fixpoint chunk_parts (parts : list str) (max_chunk_length : Z)
    (chunks : list str) : result (list str) :=
  match parts with
  | [] => Ok chunks
  | part :: rest =>
      let part := strip part in
      match part with
      | [] => chunk_parts rest max_chunk_length chunks
      | _ :: _ =>
          if len part >? max_chunk_length then
            match fixed_size_chunks part max_chunk_length with
            | Ok ws => chunk_parts rest max_chunk_length (chunks ++ ws)
            | Raise e => Raise e
            end
          else chunk_parts rest max_chunk_length (chunks ++ [part])
      end
  end.

Definition split_into_logical_chunks (file_content file_extension : str)
    (max_chunk_length : Z) : result (list str) :=
  if bool_decide (lower file_extension = u ".py") then
    chunk_parts (pattern_split file_content) max_chunk_length []
  else if len file_content >? max_chunk_length then
    fixed_size_chunks file_content max_chunk_length
  else Ok [file_content].

(** The boundary split as section 4.1 of the specification words it: the
    text is cut at the start of every boundary, the keyword begins the new
    piece, each piece is trimmed and empty pieces are dropped.  Used only
    to compare with [split_into_logical_chunks]. *)
Fixpoint spec_boundary_scan (bol : bool) (seg : str) (s : str) : list str :=
  match s with
  | [] => [seg]
  | c :: s' =>
      match match_boundary bol s with
      | Some _ => seg :: spec_boundary_scan (is_newline c) [c] s'
      | None => spec_boundary_scan (is_newline c) (seg ++ [c]) s'
      end
  end.

Definition spec_boundary_pieces (content : str) : list str :=
  filter (fun p => p <> []) (map strip (spec_boundary_scan true [] content)).

(** ** Paths ([posixpath]) and small string helpers *)

Definition slash : codepoint := 47%N.
Definition dot : codepoint := 46%N.

Fixpoint rfind_from (c : codepoint) (s : str) (i found : Z) : Z :=
  match s with
  | [] => found
  | x :: s' => rfind_from c s' (i + 1) (if (x =? c)%N then i else found)
  end.

(** [s.rfind(c)] for a one-character [c]: the last index of [c], or [-1]. *)
Definition rfind (c : codepoint) (s : str) : Z := rfind_from c s 0 (-1).

(** [os.path.basename] *)
Definition basename (p : str) : str :=
  let i := rfind slash p + 1 in
  slice p i (len p).

(** [os.path.splitext]: the extension starts at the last dot of the last
    path component, unless that component has only dots before it. *)
Definition splitext (p : str) : str * str :=
  let sepIndex := rfind slash p in
  let dotIndex := rfind dot p in
  if (dotIndex >? sepIndex)
     && existsb (fun c => negb (c =? dot)%N) (slice p (sepIndex + 1) dotIndex)
  then (slice p 0 dotIndex, slice p dotIndex (len p))
  else (p, []).

(** [os.path.join(a, b)] *)
Definition path_join (a b : str) : str :=
  match b with
  | c :: _ =>
      if (c =? slash)%N then b
      else match last a with
           | None => a ++ b
           | Some d => if (d =? slash)%N then a ++ b else a ++ [slash] ++ b
           end
  | [] =>
      match last a with
      | None => a ++ b
      | Some d => if (d =? slash)%N then a ++ b else a ++ [slash] ++ b
      end
  end.

(** [s * n] *)
Definition str_repeat (s : str) (n : Z) : str :=
  concat (replicate (Z.to_nat n) s).

(** [str(n)] for an [int]: its decimal digits. *)
Definition str_of_int (n : Z) : str :=
  u (NilZero.string_of_int (Z.to_int n)).

(** [s.replace(a, b)] for one-character [a] and [b]. *)
Definition replace_char (a b : codepoint) (s : str) : str :=
  map (fun c => if (c =? a)%N then b else c) s.

(** The order of [str]: code point by code point, a proper prefix first. *)
Fixpoint str_leb (a b : str) : bool :=
  match a, b with
  | [], _ => true
  | _ :: _, [] => false
  | x :: a', y :: b' =>
      if (x <? y)%N then true
      else if (y <? x)%N then false
      else str_leb a' b'
  end.

Definition str_le (a b : str) : Prop := str_leb a b = true.

#[global] Instance str_le_dec : RelDecision str_le.
Proof. intros a b. unfold str_le. apply _. Defined.

(** [sorted(l)] on a list of [str].  [str_le] is a total order, so the
    sorted permutation of a list is unique and the sorting algorithm does
    not show in the result. *)
Definition sorted (l : list str) : list str := merge_sort str_le l.

(** ** The collaborator, the file system and the monad of the program *)

(** One call of [llm_call] with its four arguments. *)
Record call : Type := Call {
  call_prompt : str;
  call_system_message : str;
  call_temperature : Q;
  call_max_tokens : Z
}.

(** The outcome of an operation on the file system: a value, or an
    exception [e] that the program catches, given by its text [str(e)]. *)
Inductive io (A : Type) : Type :=
| Returns (a : A)
| Fails (message : str).
Arguments Returns {A} a.
Arguments Fails {A} message.

#[global] Instance io_eq_dec {A : Type} `{EqDecision A} : EqDecision (io A).
Proof. solve_decision. Defined.

(** What the program runs against: the language model, whose answer may
    depend on the calls made before, and a file system. *)
Record world : Type := World {
  respond : list call -> call -> str;
  read_text : str -> io str;
  listdir : str -> io (list str);
  isdir : str -> bool;
  isfile : str -> bool
}.

(** A computation takes the list of calls made so far and gives a value or
    an exception, with the calls made by then. *)
Definition M (A : Type) : Type := list call -> result A * list call.

Definition ret {A : Type} (a : A) : M A := fun log => (Ok a, log).

Definition bind {A B : Type} (m : M A) (k : A -> M B) : M B :=
  fun log =>
    match m log with
    | (Ok a, log') => k a log'
    | (Raise e, log') => (Raise e, log')
    end.

Definition raise {A : Type} (e : exn) : M A := fun log => (Raise e, log).

Definition lift {A : Type} (r : result A) : M A := fun log => (r, log).

Notation "x <- m ;; k" := (bind m (fun x => k))
  (at level 100, m at next level, right associativity).

(** The body of the stub [llm_call] of the source file. *)
Definition stub_respond (_ : list call) (c : call) : str :=
  u "LLM_Summary (truncated): "
  ++ replace_char newline 32%N (slice (call_prompt c) 0 75) ++ u "...".

Definition DIRECT_SUMMARY_THRESHOLD : Z := 10000.

Definition assistant : str := u "You are a code summarization assistant.".

Section Indexer.

Variable w : world.

Definition llm_call (prompt system_message : str) (temperature : Q)
    (max_tokens : Z) : M str :=
  fun log =>
    let c := Call prompt system_message temperature max_tokens in
    (Ok (respond w log c), log ++ [c]).

(** [for idx, chunk in enumerate(chunks)] of [summarize_file], from index
    [idx] on. *)
Fixpoint summarize_chunks (idx : Z) (chunks : list str)
    (chunk_summaries : list str) : M (list str) :=
  match chunks with
  | [] => ret chunk_summaries
  | chunk :: rest =>
      chunk_summary <-
        llm_call (u "Please provide a brief summary of the following code chunk (part "
                  ++ str_of_int (idx + 1) ++ u "):" ++ [newline; newline]
                  ++ chunk)
                 assistant (1 # 2) 150;;
      summarize_chunks (idx + 1) rest (chunk_summaries ++ [chunk_summary])
  end.

Definition summarize_file (file_path : str) : M str :=
  match read_text w file_path with
  | Fails e => ret (u "Error reading file: " ++ e)
  | Returns file_content =>
      if len file_content <=? DIRECT_SUMMARY_THRESHOLD then
        llm_call (u "Please provide a concise summary of the following code:"
                  ++ [newline; newline] ++ file_content)
                 assistant (1 # 2) 150
      else
        let ext := snd (splitext file_path) in
        chunks <- lift (split_into_logical_chunks file_content ext
                          DIRECT_SUMMARY_THRESHOLD);;
        chunk_summaries <- summarize_chunks 0 chunks [];;
        llm_call (u "Please synthesize the following chunk summaries into one overall summary for the entire file:"
                  ++ [newline; newline] ++ join [newline] chunk_summaries)
                 assistant (1 # 2) 200
  end.

(** [for entry in entries] of [process_directory]; [recurse] is the
    recursive call and [index_lines] the lines built so far. *)
Fixpoint process_entries (recurse : str -> Z -> M (list str))
    (directory : str) (indent : Z) (entries : list str)
    (index_lines : list str) : M (list str) :=
  match entries with
  | [] => ret index_lines
  | entry :: rest =>
      let indent_str := str_repeat (u "    ") indent in
      let path := path_join directory entry in
      if isdir w path then
        sub <- recurse path (indent + 1);;
        process_entries recurse directory indent rest (index_lines ++ sub)
      else if isfile w path then
        file_summary <- summarize_file path;;
        process_entries recurse directory indent rest
          (index_lines ++ [indent_str ++ u "    File: " ++ entry;
                           indent_str ++ u "        Summary: " ++ file_summary])
      else process_entries recurse directory indent rest index_lines
  end.

(** [fuel] bounds the nesting of the recursive calls: a walk needs more
    fuel than the directories nest deep.  Running out of it stands for the
    interpreter's recursion limit; where exactly Python raises
    [RecursionError] near that limit, and which handler catches it, is not
    modelled, and the properties below take enough fuel. *)
Fixpoint process_directory (fuel : nat) (directory : str) (indent : Z)
    : M (list str) :=
  match fuel with
  | O => raise RecursionError
  | S fuel' =>
      let indent_str := str_repeat (u "    ") indent in
      let dir_name :=
        match basename directory with
        | [] => directory
        | _ :: _ => basename directory
        end in
      let index_lines := [indent_str ++ u "Directory: " ++ dir_name] in
      match listdir w directory with
      | Fails e =>
          ret (index_lines
               ++ [indent_str ++ u "    Error reading directory: " ++ e])
      | Returns names =>
          process_entries (process_directory fuel') directory indent
            (sorted names) index_lines
      end
  end.

Definition build_library_index (fuel : nat) (root_directory : str) : M str :=
  index_lines <- process_directory fuel root_directory 0;;
  ret (join [newline] index_lines).

(** The directories below [d] nest less than [fuel] deep. *)
Inductive walkable : nat -> str -> Prop :=
| walkable_unlisted fuel d e :
    listdir w d = Fails e -> walkable (S fuel) d
| walkable_listed fuel d names :
    listdir w d = Returns names ->
    (forall entry, entry ∈ names -> isdir w (path_join d entry) = true ->
       walkable fuel (path_join d entry)) ->
    walkable (S fuel) d.

End Indexer.

(** Two worlds show the same directory tree when they differ at most in
    the order in which a directory enumerates its entries. *)
Definition same_listing (a b : io (list str)) : Prop :=
  match a, b with
  | Returns l1, Returns l2 => l1 ≡ₚ l2
  | Fails e1, Fails e2 => e1 = e2
  | _, _ => False
  end.

Record same_tree (w1 w2 : world) : Prop := {
  same_respond : forall log c, respond w1 log c = respond w2 log c;
  same_read_text : forall p, read_text w1 p = read_text w2 p;
  same_isdir : forall p, isdir w1 p = isdir w2 p;
  same_isfile : forall p, isfile w1 p = isfile w2 p;
  same_listdir : forall p, same_listing (listdir w1 p) (listdir w2 p)
}.

(** ** A small world to run the program on

    [/proj] holds a short Python file, a Python file of 10001 blanks, a
    file that cannot be read, a directory [lib] with a text file of 50000
    characters, and a directory that cannot be listed. *)

Definition denied (p : str) : str :=
  u "[Errno 13] Permission denied: '" ++ p ++ u "'".

Definition demo_read_text (p : str) : io str :=
  if bool_decide (p = u "/proj/a.py") then Returns (u "def f(): pass")
  else if bool_decide (p = u "/proj/blank.PY") then
    Returns (replicate (Z.to_nat 10001) 32%N)
  else if bool_decide (p = u "/proj/lib/b.txt") then
    Returns (replicate (Z.to_nat 50000) 120%N)
  else Fails (denied p).

Definition demo_listdir (p : str) : io (list str) :=
  if bool_decide (p = u "/proj") then
    Returns [u "lib"; u "a.py"; u "locked"; u "blank.PY"; u "bad.bin"]
  else if bool_decide (p = u "/proj/lib") then Returns [u "b.txt"]
  else Fails (denied p).

Definition demo_isdir (p : str) : bool :=
  bool_decide (p ∈ [u "/proj"; u "/proj/lib"; u "/proj/locked"]).

Definition demo_isfile (p : str) : bool :=
  bool_decide (p ∈ [u "/proj/a.py"; u "/proj/blank.PY"; u "/proj/bad.bin";
                    u "/proj/lib/b.txt"]).

Definition demo : world :=
  World stub_respond demo_read_text demo_listdir demo_isdir demo_isfile.

(** The same tree, every directory enumerated backwards. *)
Definition demo_backwards : world :=
  World stub_respond demo_read_text
    (fun p => match demo_listdir p with
              | Returns names => Returns (reverse names)
              | Fails e => Fails e
              end)
    demo_isdir demo_isfile.

(** A directory with one short file, reached through the path [notes/]
    with a slash at its end. *)
Definition notes : world :=
  World stub_respond
    (fun p => if bool_decide (p = u "notes/todo.txt")
              then Returns (u "buy milk") else Fails (denied p))
    (fun p => if bool_decide (p = u "notes/")
              then Returns [u "todo.txt"] else Fails (denied p))
    (fun p => bool_decide (p = u "notes/"))
    (fun p => bool_decide (p = u "notes/todo.txt")).

(** The tree of [demo] seen by a file system in which nothing is a
    regular file. *)
Definition demo_directories_only : world :=
  World stub_respond demo_read_text demo_listdir demo_isdir (fun _ => false).

(** An entry that the walker shows: a directory or a regular file. *)
Definition shown (w : world) (directory entry : str) : bool :=
  isdir w (path_join directory entry) || isfile w (path_join directory entry).

(** [w'] is [w] without the entries that are neither directories nor
    regular files (sockets, devices, broken links). *)
Record without_special (w w' : world) : Prop := {
  special_respond : forall log c, respond w log c = respond w' log c;
  special_read_text : forall p, read_text w p = read_text w' p;
  special_isdir : forall p, isdir w p = isdir w' p;
  special_isfile : forall p, isfile w p = isfile w' p;
  special_listdir : forall p,
    listdir w' p
    = match listdir w p with
      | Returns names => Returns (filter (fun n => shown w p n = true) names)
      | Fails e => Fails e
      end
}.

(** [demo] with a socket in [/proj]. *)
Definition demo_with_socket : world :=
  World stub_respond demo_read_text
    (fun p => if bool_decide (p = u "/proj")
              then Returns [u "lib"; u "a.py"; u "run.sock"; u "locked";
                            u "blank.PY"; u "bad.bin"]
              else demo_listdir p)
    demo_isdir demo_isfile.

(** The text without its white space. *)
Definition without_space (s : str) : str :=
  filter (fun c => isspace c = false) s.

(** The first line of what a walk returned, if it returned one. *)
Definition first_line (r : result (list str) * list call) : option str :=
  match fst r with
  | Ok (line :: _) => Some line
  | _ => None
  end.

(** The parts of a split at the even places (the segments between the
    matches) and at the odd places (what the group captured). *)
Fixpoint evens {A : Type} (l : list A) : list A :=
  match l with
  | x :: _ :: l' => x :: evens l'
  | _ => l
  end.

Fixpoint odds {A : Type} (l : list A) : list A :=
  match l with
  | _ :: y :: l' => y :: odds l'
  | _ => []
  end.

(** The parameters that every call of the program carries: the system
    message, the temperature 0.5, and an output cap of 150 or 200. *)
Definition fixed_parameters (c : call) : Prop :=
  call_system_message c = u "You are a code summarization assistant."
  /\ call_temperature c = (1 # 2)%Q
  /\ (call_max_tokens c = 150 \/ call_max_tokens c = 200).

(** A line of the index that announces a directory or reports that it
    could not be listed. *)
Definition directory_or_error_line (line : str) : Prop :=
  exists (k : nat) (rest : str),
    line = replicate k 32%N ++ u "Directory: " ++ rest
    \/ line = replicate k 32%N ++ u "Error reading directory: " ++ rest.

(** [file_below w d depth p entry k]: walking from the directory [d] at
    depth [depth] through directories that can be listed, the walker meets
    the regular file [entry], of path [p], in a directory at depth [k]. *)
Inductive file_below (w : world) : str -> Z -> str -> str -> Z -> Prop :=
| file_here d depth names entry :
    listdir w d = Returns names ->
    entry ∈ names ->
    isdir w (path_join d entry) = false ->
    isfile w (path_join d entry) = true ->
    file_below w d depth (path_join d entry) entry depth
| file_deeper d depth names sub p entry k :
    listdir w d = Returns names ->
    sub ∈ names ->
    isdir w (path_join d sub) = true ->
    file_below w (path_join d sub) (depth + 1) p entry k ->
    file_below w d depth p entry k.

(** What the walker emits for one entry of a directory: [block] are the
    lines, [la] the calls made before the entry and [lb] the calls made
    after it.  A directory gives the lines of its own walk, one level
    deeper; a regular file its [File:] and [Summary:] lines; anything else
    nothing. *)
Definition entry_block (w : world) (recurse : str -> Z -> M (list str))
    (directory : str) (indent : Z) (entry : str)
    (la : list call) (block : list str) (lb : list call) : Prop :=
  if isdir w (path_join directory entry) then
    recurse (path_join directory entry) (indent + 1) la = (Ok block, lb)
  else if isfile w (path_join directory entry) then
    exists s,
      summarize_file w (path_join directory entry) la = (Ok s, lb)
      /\ block = [str_repeat (u "    ") indent ++ u "    File: " ++ entry;
                  str_repeat (u "    ") indent ++ u "        Summary: " ++ s]
  else block = [] /\ lb = la.

(** * Properties *)

(** ** Running the splitter *)

Example split_py_1 :
  split_into_logical_chunks (u "x" ++ [newline] ++ u "def f") (u ".Py") 10000
  = Ok [u "x"; u "def"; u "def f"].
Proof. vm_compute. reflexivity. Qed.

Example split_txt_1 :
  split_into_logical_chunks (u "abcdefg") (u ".txt") 3
  = Ok [u "abc"; u "def"; u "g"].
Proof. vm_compute. reflexivity. Qed.

Example split_txt_neg :
  split_into_logical_chunks (u "abcdefg") (u ".txt") (-3) = Ok [].
Proof. vm_compute. reflexivity. Qed.

Example split_txt_zero :
  split_into_logical_chunks (u "abcdefg") (u ".txt") 0 = Raise ValueError.
Proof. vm_compute. reflexivity. Qed.

Example spec_pieces_1 :
  spec_boundary_pieces (u "x" ++ [newline] ++ u "def f") = [u "x"; u "def f"].
Proof. vm_compute. reflexivity. Qed.

(** ** Literals and white space *)

Lemma u_def : u "def " = [100; 101; 102; 32]%N.
Proof. reflexivity. Qed.

Lemma u_class : u "class " = [99; 108; 97; 115; 115; 32]%N.
Proof. reflexivity. Qed.

Lemma lower_py_iff (ext : str) :
  lower ext = u ".py" <->
  ext ∈ [u ".py"; u ".Py"; u ".pY"; u ".PY"].
Proof.
  change (u ".py") with [46; 112; 121]%N.
  change (u ".Py") with [46; 80; 121]%N.
  change (u ".pY") with [46; 112; 89]%N.
  change (u ".PY") with [46; 80; 89]%N.
  assert (Hl : forall c d : N, lower_codepoint c = d ->
            (c = d /\ ~ (65 <= c <= 90)%N) \/ ((c + 32)%N = d /\ (65 <= c <= 90)%N)).
  { intros c d <-. unfold lower_codepoint.
    destruct (N.leb_spec 0x41 c), (N.leb_spec c 0x5A); simpl; lia. }
  split.
  - destruct ext as [|a [|b [|c [|? ?]]]]; simpl; try discriminate.
    intros H. injection H as Ha Hb Hc.
    apply Hl in Ha, Hb, Hc.
    assert (a = 46%N) as -> by lia.
    assert (b = 112 \/ b = 80)%N as [-> | ->] by lia;
      (assert (c = 121 \/ c = 89)%N as [-> | ->] by lia);
      rewrite !elem_of_cons; auto 10.
  - intros H. repeat (apply elem_of_cons in H as [-> | H]; [reflexivity|]).
    by apply elem_of_nil in H.
Qed.

Lemma lstrip_space (s : str) :
  Forall (fun c => isspace c = true) s -> lstrip s = [].
Proof.
  induction 1 as [|c s Hc _ IH]; simpl; [done|]. by rewrite Hc.
Qed.

Lemma strip_space (s : str) :
  Forall (fun c => isspace c = true) s -> strip s = [].
Proof. intros H. unfold strip, rstrip. by rewrite (lstrip_space s H). Qed.

Lemma match_boundary_space bol (s : str) :
  Forall (fun c => isspace c = true) s -> match_boundary bol s = None.
Proof.
  intros H. unfold match_boundary. destruct bol; [|done].
  rewrite u_def, u_class.
  destruct H as [|c s Hc _]; [done|].
  repeat case_bool_decide; simplify_eq/=; done.
Qed.

Lemma split_scan_space bol seg (s : str) :
  Forall (fun c => isspace c = true) s -> split_scan bol seg s = [seg ++ s].
Proof.
  intros H. revert bol seg.
  induction H as [|c s Hc Hs IH]; intros bol seg; simpl.
  - by rewrite app_nil_r.
  - rewrite match_boundary_space by (by constructor).
    rewrite IH. by rewrite <- app_assoc.
Qed.

Lemma split_space_py (content ext : str) (max_chunk_length : Z) :
  lower ext = u ".py" ->
  Forall (fun c => isspace c = true) content ->
  split_into_logical_chunks content ext max_chunk_length = Ok [].
Proof.
  intros Hext Hws. unfold split_into_logical_chunks.
  rewrite bool_decide_eq_true_2 by done.
  unfold pattern_split. rewrite split_scan_space by done. simpl.
  by rewrite strip_space.
Qed.

(** ** Slices and fixed-size windows *)

Lemma len_nonneg (s : str) : 0 <= len s.
Proof. unfold len. lia. Qed.

Lemma clamp_index_range n i : 0 <= n -> 0 <= clamp_index n i <= n.
Proof. unfold clamp_index. destruct (Z.ltb_spec i 0); lia. Qed.

Lemma slice_window_len (s : str) i n :
  0 < n -> len (slice s i (i + n)) <= n.
Proof.
  intros Hn. unfold slice, len at 1. rewrite length_take.
  pose proof (len_nonneg s).
  unfold clamp_index.
  destruct (Z.ltb_spec i 0), (Z.ltb_spec (i + n) 0); lia.
Qed.

(** From an index inside the text on, the window is the next [n]
    characters. *)
Lemma slice_window (s : str) (k : nat) n :
  0 < n ->
  take (Z.to_nat (Z.of_nat k * n)) s ++ slice s (Z.of_nat k * n) (Z.of_nat k * n + n)
  = take (Z.to_nat (Z.of_nat (S k) * n)) s.
Proof.
  intros Hn. unfold slice, clamp_index.
  pose proof (len_nonneg s) as Hs. unfold len in *.
  destruct (Z.ltb_spec (Z.of_nat k * n) 0); [lia|].
  destruct (Z.ltb_spec (Z.of_nat k * n + n) 0); [lia|].
  destruct (Z.le_gt_cases (Z.of_nat k * n) (Z.of_nat (length s))) as [Hle|Hgt].
  - rewrite (Z.min_l (Z.of_nat k * n)) by lia. rewrite take_take_drop.
    destruct (Z.le_gt_cases (Z.of_nat k * n + n) (Z.of_nat (length s))).
    + f_equal. lia.
    + rewrite !take_ge by lia. done.
  - rewrite !Z.min_r by lia. rewrite Z.sub_diag. simpl. rewrite take_0, app_nil_r.
    rewrite !take_ge by lia. done.
Qed.

Lemma windows_concat (s : str) n (m : nat) :
  0 < n ->
  concat (map (fun i => slice s i (i + n))
              (map (fun k => 0 + Z.of_nat k * n) (seq 0 m)))
  = take (Z.to_nat (Z.of_nat m * n)) s.
Proof.
  intros Hn. induction m as [|m IH].
  - simpl. by rewrite take_0.
  - rewrite seq_S, !map_app, concat_app, IH. simpl concat.
    rewrite app_nil_r, Z.add_0_l. by apply slice_window.
Qed.

Lemma range_length_covers L n :
  0 < n -> 0 <= L -> L <= Z.of_nat (Z.to_nat (range_length 0 L n)) * n.
Proof.
  intros Hn HL. unfold range_length.
  destruct (Z.ltb_spec 0 n); [|lia].
  destruct (Z.ltb_spec 0 L); [|lia].
  pose proof (Z.mul_succ_div_gt (L - 0 - 1) n Hn).
  assert (0 <= (L - 0 - 1) / n) by (apply Z.div_pos; lia).
  rewrite Z2Nat.id by lia. lia.
Qed.

Lemma fixed_size_chunks_total (s : str) n :
  n <> 0 -> exists ws, fixed_size_chunks s n = Ok ws.
Proof.
  intros Hn. unfold fixed_size_chunks, py_range.
  destruct (Z.eqb_spec n 0); [done|]. eauto.
Qed.

Lemma fixed_size_chunks_len (s : str) n ws :
  fixed_size_chunks s n = Ok ws -> Forall (fun c => len c <= n) ws.
Proof.
  unfold fixed_size_chunks, py_range.
  destruct (Z.eqb_spec n 0); [done|]. intros [= <-].
  destruct (Z.lt_ge_cases 0 n) as [Hpos|Hneg].
  - rewrite Forall_map. apply Forall_forall. intros i _. simpl.
    by apply slice_window_len.
  - unfold range_length. pose proof (len_nonneg s).
    destruct (Z.ltb_spec 0 n); [lia|].
    destruct (Z.ltb_spec (len s) 0); [lia|]. simpl. constructor.
Qed.

Lemma fixed_size_chunks_concat (s : str) n :
  0 < n -> exists ws, fixed_size_chunks s n = Ok ws /\ concat ws = s.
Proof.
  intros Hn. unfold fixed_size_chunks, py_range.
  destruct (Z.eqb_spec n 0); [lia|].
  eexists; split; [reflexivity|].
  rewrite windows_concat by done.
  apply take_ge.
  pose proof (range_length_covers (len s) n Hn (len_nonneg s)).
  unfold len in *. lia.
Qed.

Lemma chunk_parts_len parts n acc chunks :
  chunk_parts parts n acc = Ok chunks ->
  Forall (fun c => len c <= n) acc ->
  Forall (fun c => len c <= n) chunks.
Proof.
  revert acc. induction parts as [|part rest IH]; intros acc; simpl.
  - by intros [= <-].
  - destruct (strip part) as [|c p] eqn:Hp; [by apply IH|].
    destruct (Z.gtb_spec (len (c :: p)) n) as [Hgt|Hle].
    + destruct (fixed_size_chunks (c :: p) n) as [ws|e] eqn:Hws; [|done].
      intros H Hacc. apply (IH _ H). apply Forall_app. split; [done|].
      by apply fixed_size_chunks_len in Hws.
    + intros H Hacc. apply (IH _ H). apply Forall_app. split; [done|].
      by repeat constructor.
Qed.

Lemma chunk_parts_total parts n acc :
  n <> 0 -> exists chunks, chunk_parts parts n acc = Ok chunks.
Proof.
  intros Hn. revert acc. induction parts as [|part rest IH]; intros acc; simpl.
  - eauto.
  - destruct (strip part) as [|c p]; [by apply IH|].
    destruct (len (c :: p) >? n); [|by apply IH].
    destruct (fixed_size_chunks_total (c :: p) n Hn) as [ws ->]. by apply IH.
Qed.

(** X1. Outside the [.py] branch and with a positive bound, the chunks in
    order spell the content again, character for character. *)
Lemma split_other_concat (content ext : str) n :
  lower ext <> u ".py" -> 0 < n ->
  exists chunks,
    split_into_logical_chunks content ext n = Ok chunks
    /\ concat chunks = content.
Proof.
  intros Hext Hn. unfold split_into_logical_chunks.
  rewrite bool_decide_eq_false_2 by done.
  destruct (len content >? n).
  - by apply fixed_size_chunks_concat.
  - eexists; split; [reflexivity|]. simpl. by rewrite app_nil_r.
Qed.

Lemma split_total (content ext : str) n :
  n <> 0 -> exists chunks, split_into_logical_chunks content ext n = Ok chunks.
Proof.
  intros Hn. unfold split_into_logical_chunks. case_bool_decide.
  - by apply chunk_parts_total.
  - destruct (len content >? n); [by apply fixed_size_chunks_total | eauto].
Qed.

(** ** The chunk splitter: bounds and boundaries *)

(** C2. Every chunk that [split_into_logical_chunks] returns has length at
    most [max_chunk_length], for every content, extension and bound; and
    the call does return a sequence for every bound other than zero (at
    zero [range] raises on a non-empty text, and nothing is returned). *)
Theorem split_chunks_within_max (content ext : str) (n : Z) :
  (forall chunks,
     split_into_logical_chunks content ext n = Ok chunks ->
     Forall (fun c => len c <= n) chunks)
  /\ (n <> 0 -> exists chunks, split_into_logical_chunks content ext n = Ok chunks).
Proof.
  split.
  - unfold split_into_logical_chunks. intros chunks. case_bool_decide as Hext.
    + intros Hrun. by apply (chunk_parts_len _ _ _ _ Hrun).
    + destruct (Z.gtb_spec (len content) n).
      * apply fixed_size_chunks_len.
      * intros [= <-]. by repeat constructor.
  - apply split_total.
Qed.

Lemma split_chunks_within_max_witness :
  exists chunks,
    split_into_logical_chunks (u "import os" ++ [newline] ++ u "def f(): pass")
      (u ".py") 3 = Ok chunks
    /\ Forall (fun c => len c <= 3) chunks.
Proof.
  destruct (split_chunks_within_max
              (u "import os" ++ [newline] ++ u "def f(): pass") (u ".py") 3)
    as [Hlen Htotal].
  destruct Htotal as [chunks Hchunks]; [lia|].
  exists chunks. split; [exact Hchunks | exact (Hlen chunks Hchunks)].
Defined.

(** C1 (defect in the code). On the [.py] branch the chunks do not spell
    the content again: for the content ["def f"] the splitter returns
    ["def"] and ["def f"], so the keyword is there twice, also when white
    space is left out of the comparison. *)
Theorem split_py_repeats_keyword :
  split_into_logical_chunks (u "def f") (u ".py") 10000
  = Ok [u "def"; u "def f"]
  /\ without_space (concat [u "def"; u "def f"]) <> without_space (u "def f").
Proof. split; [vm_compute; reflexivity | vm_compute; discriminate]. Qed.

(** C3 (defect in the code). On the [.py] branch the chunks are not the
    trimmed pieces between boundaries: an extra chunk with the bare
    keyword comes before every piece that starts at a boundary. *)
Theorem split_py_inserts_keyword_chunk :
  split_into_logical_chunks (u "x" ++ [newline] ++ u "def f") (u ".py") 10000
  = Ok [u "x"; u "def"; u "def f"]
  /\ spec_boundary_pieces (u "x" ++ [newline] ++ u "def f")
     = [u "x"; u "def f"].
Proof. split; vm_compute; reflexivity. Qed.

(** ** The file summarizer *)

Example str_of_int_12 : str_of_int 12 = u "12".
Proof. reflexivity. Qed.

Lemma summarize_chunks_calls (w : world) (chunks : list str) :
  forall idx acc log,
  exists calls summaries,
    length calls = length chunks
    /\ length summaries = length chunks
    /\ (forall (i : nat) chunk,
          chunks !! i = Some chunk ->
          let c := Call (u "Please provide a brief summary of the following code chunk (part "
                         ++ str_of_int (idx + Z.of_nat i + 1) ++ u "):"
                         ++ [newline; newline] ++ chunk)
                        assistant (1 # 2) 150 in
          calls !! i = Some c
          /\ summaries !! i = Some (respond w (log ++ take i calls) c))
    /\ summarize_chunks w idx chunks acc log = (Ok (acc ++ summaries), log ++ calls).
Proof.
  induction chunks as [|chunk rest IH]; intros idx acc log.
  - exists [], []. split; [done|]. split; [done|]. split; [done|].
    cbn [summarize_chunks]. unfold ret. by rewrite !app_nil_r.
  - cbn [summarize_chunks]. unfold bind, llm_call at 1.
    set (c0 := Call _ assistant (1 # 2) 150).
    destruct (IH (idx + 1) (acc ++ [respond w log c0]) (log ++ [c0]))
      as (calls & summaries & Hc & Hs & Hi & Hrun).
    exists (c0 :: calls), (respond w log c0 :: summaries).
    split; [cbn [length]; lia|]. split; [cbn [length]; lia|]. split.
    + intros [|i] chunk' Hlook.
      * injection Hlook as <-. subst c0.
        rewrite Z.add_0_r, take_0, app_nil_r. done.
      * change ((chunk :: rest) !! S i) with (rest !! i) in Hlook.
        destruct (Hi i chunk' Hlook) as [H1 H2].
        replace (idx + Z.of_nat (S i) + 1)
          with (idx + 1 + Z.of_nat i + 1) by lia.
        change ((c0 :: calls) !! S i) with (calls !! i).
        change ((respond w log c0 :: summaries) !! S i) with (summaries !! i).
        change (take (S i) (c0 :: calls)) with (c0 :: take i calls).
        rewrite <- app_assoc in H2. done.
    + rewrite Hrun, <- !app_assoc. done.
Qed.

(** C5. A readable file of at most [DIRECT_SUMMARY_THRESHOLD] characters
    gets exactly one call of the collaborator; the prompt ends with the
    whole content and the answer is returned as it is. *)
Theorem summarize_small_file (w : world) (file_path content : str)
    (log : list call) :
  read_text w file_path = Returns content ->
  len content <= DIRECT_SUMMARY_THRESHOLD ->
  let c := Call (u "Please provide a concise summary of the following code:"
                 ++ [newline; newline] ++ content)
                (u "You are a code summarization assistant.") (1 # 2) 150 in
  summarize_file w file_path log = (Ok (respond w log c), log ++ [c]).
Proof.
  intros Hread Hlen. simpl. unfold summarize_file. rewrite Hread.
  destruct (Z.leb_spec (len content) DIRECT_SUMMARY_THRESHOLD); [|lia].
  reflexivity.
Qed.

Lemma summarize_small_file_witness :
  summarize_file demo (u "/proj/a.py") []
  = (Ok (u "LLM_Summary (truncated): Please provide a concise summary of the following code:  def f(): pass..."),
     [Call (u "Please provide a concise summary of the following code:"
            ++ [newline; newline] ++ u "def f(): pass")
           (u "You are a code summarization assistant.") (1 # 2) 150]).
Proof.
  apply (summarize_small_file demo (u "/proj/a.py") (u "def f(): pass") []).
  - reflexivity.
  - vm_compute. discriminate.
Defined.

(** C4. A readable file longer than the threshold whose split gives [N]
    chunks gets [N + 1] calls: one for each chunk, in order, the prompt
    naming the chunk's position counted from 1, with output cap 150; then
    one with cap 200 whose prompt holds the [N] answers in order, joined
    by newlines.  The answer to the last call is returned. *)
Theorem summarize_large_file (w : world) (file_path content : str)
    (chunks : list str) (log : list call) :
  read_text w file_path = Returns content ->
  DIRECT_SUMMARY_THRESHOLD < len content ->
  split_into_logical_chunks content (snd (splitext file_path))
    DIRECT_SUMMARY_THRESHOLD = Ok chunks ->
  exists calls summaries,
    length calls = length chunks
    /\ length summaries = length chunks
    /\ (forall (i : nat) chunk,
          chunks !! i = Some chunk ->
          let c := Call (u "Please provide a brief summary of the following code chunk (part "
                         ++ str_of_int (Z.of_nat i + 1) ++ u "):"
                         ++ [newline; newline] ++ chunk)
                        (u "You are a code summarization assistant.")
                        (1 # 2) 150 in
          calls !! i = Some c
          /\ summaries !! i = Some (respond w (log ++ take i calls) c))
    /\ let synthesis :=
         Call (u "Please synthesize the following chunk summaries into one overall summary for the entire file:"
               ++ [newline; newline] ++ join [newline] summaries)
              (u "You are a code summarization assistant.") (1 # 2) 200 in
       summarize_file w file_path log
       = (Ok (respond w (log ++ calls) synthesis), log ++ calls ++ [synthesis]).
Proof.
  intros Hread Hlen Hsplit.
  destruct (summarize_chunks_calls w chunks 0 [] log)
    as (calls & summaries & Hc & Hs & Hi & Hrun).
  exists calls, summaries. repeat split; try done.
  - by apply Hi.
  - by apply Hi.
  - unfold summarize_file. rewrite Hread.
    destruct (Z.leb_spec (len content) DIRECT_SUMMARY_THRESHOLD); [lia|].
    unfold bind, lift. rewrite Hsplit, Hrun. simpl.
    unfold llm_call. by rewrite <- app_assoc.
Qed.

Lemma summarize_large_file_witness :
  exists calls summaries,
    length calls = 5%nat
    /\ length summaries = 5%nat
    /\ snd (summarize_file demo (u "/proj/lib/b.txt") [])
       = calls
         ++ [Call (u "Please synthesize the following chunk summaries into one overall summary for the entire file:"
                   ++ [newline; newline] ++ join [newline] summaries)
                  (u "You are a code summarization assistant.") (1 # 2) 200].
Proof.
  destruct (summarize_large_file demo (u "/proj/lib/b.txt")
              (replicate (Z.to_nat 50000) 120%N)
              (replicate 5 (replicate (Z.to_nat 10000) 120%N)) [])
    as (calls & summaries & Hc & Hs & _ & Hrun).
  - apply (bool_decide_unpack _). vm_compute. exact I.
  - vm_compute. reflexivity.
  - apply (bool_decide_unpack _). vm_compute. exact I.
  - exists calls, summaries.
    split; [exact Hc|]. split; [exact Hs|].
    rewrite Hrun. reflexivity.
Defined.

(** C10. For a [.py] extension in any letter case and a content that is
    empty or all white space, the splitter returns the empty sequence;
    [summarize_file] on such a file longer than the threshold then makes
    no call for a chunk and one call in all, the synthesis over the empty
    join. *)
Theorem split_blank_python (content ext : str) (n : Z) :
  lower ext = u ".py" ->
  Forall (fun c => isspace c = true) content ->
  split_into_logical_chunks content ext n = Ok []
  /\ forall (w : world) (file_path : str) (log : list call),
       read_text w file_path = Returns content ->
       snd (splitext file_path) = ext ->
       DIRECT_SUMMARY_THRESHOLD < len content ->
       let synthesis :=
         Call (u "Please synthesize the following chunk summaries into one overall summary for the entire file:"
               ++ [newline; newline])
              (u "You are a code summarization assistant.") (1 # 2) 200 in
       summarize_file w file_path log
       = (Ok (respond w log synthesis), log ++ [synthesis]).
Proof.
  intros Hext Hws. split; [by apply split_space_py|].
  intros w file_path log Hread Hpath Hlen. cbv zeta.
  unfold summarize_file. rewrite Hread.
  destruct (Z.leb_spec (len content) DIRECT_SUMMARY_THRESHOLD); [lia|].
  rewrite Hpath, (split_space_py content ext _ Hext Hws).
  unfold bind, lift. cbn [summarize_chunks join]. unfold ret, llm_call.
  by rewrite !app_nil_r.
Qed.

Lemma split_blank_python_witness :
  split_into_logical_chunks (replicate (Z.to_nat 10001) 32%N) (u ".PY") 10000
  = Ok []
  /\ length (snd (summarize_file demo (u "/proj/blank.PY") [])) = 1%nat.
Proof.
  destruct (split_blank_python (replicate (Z.to_nat 10001) 32%N) (u ".PY") 10000)
    as [Hsplit Hfile].
  - vm_compute. reflexivity.
  - apply Forall_replicate. vm_compute. reflexivity.
  - split; [exact Hsplit|].
    rewrite (Hfile demo (u "/proj/blank.PY") []).
    + reflexivity.
    + apply (bool_decide_unpack _). vm_compute. exact I.
    + vm_compute. reflexivity.
    + vm_compute. reflexivity.
Defined.

(** ** The order of strings and [sorted] *)

Lemma str_leb_total (a b : str) : str_leb a b = true \/ str_leb b a = true.
Proof.
  revert b. induction a as [|x a IH]; intros [|y b]; cbn [str_leb]; auto.
  destruct (N.ltb_spec x y), (N.ltb_spec y x); auto; lia.
Qed.

Lemma str_leb_antisym (a b : str) :
  str_leb a b = true -> str_leb b a = true -> a = b.
Proof.
  revert b. induction a as [|x a IH]; intros [|y b]; cbn [str_leb]; try done.
  destruct (N.ltb_spec x y), (N.ltb_spec y x); try done; try lia.
  intros Hab Hba. f_equal; [lia | by apply IH].
Qed.

Lemma str_leb_trans (a b c : str) :
  str_leb a b = true -> str_leb b c = true -> str_leb a c = true.
Proof.
  revert b c.
  induction a as [|x a IH]; intros [|y b] [|z c]; cbn [str_leb]; try done.
  destruct (N.ltb_spec x y), (N.ltb_spec y x), (N.ltb_spec y z),
    (N.ltb_spec z y), (N.ltb_spec x z), (N.ltb_spec z x);
    try done; try lia.
  apply IH.
Qed.

#[global] Instance str_le_total : Total str_le.
Proof. intros a b. apply str_leb_total. Qed.

#[global] Instance str_le_trans : Transitive str_le.
Proof. intros a b c. apply str_leb_trans. Qed.

#[global] Instance str_le_antisym : AntiSymm (=) str_le.
Proof. intros a b. apply str_leb_antisym. Qed.

Lemma sorted_Sorted (l : list str) : Sorted str_le (sorted l).
Proof. apply (Sorted_merge_sort str_le). Qed.

Lemma sorted_Permutation (l : list str) : sorted l ≡ₚ l.
Proof. apply (merge_sort_Permutation str_le). Qed.

Lemma sorted_enumeration_order (l1 l2 : list str) :
  l1 ≡ₚ l2 -> sorted l1 = sorted l2.
Proof.
  intros Hperm. apply (Sorted_unique str_le); try apply sorted_Sorted.
  by rewrite !sorted_Permutation.
Qed.

(** ** The walker does not depend on the enumeration order *)

Section SameTree.

Variables w1 w2 : world.
Hypothesis Hsame : same_tree w1 w2.

Lemma llm_call_same prompt system_message temperature max_tokens log :
  llm_call w1 prompt system_message temperature max_tokens log
  = llm_call w2 prompt system_message temperature max_tokens log.
Proof. unfold llm_call. by rewrite (same_respond _ _ Hsame). Qed.

Lemma summarize_chunks_same chunks :
  forall idx acc log,
    summarize_chunks w1 idx chunks acc log
    = summarize_chunks w2 idx chunks acc log.
Proof.
  induction chunks as [|chunk rest IH]; intros idx acc log;
    cbn [summarize_chunks]; [done|].
  unfold bind. rewrite llm_call_same.
  destruct (llm_call w2 _ _ _ _ log) as [[s|e] log']; [apply IH | done].
Qed.

Lemma summarize_file_same file_path log :
  summarize_file w1 file_path log = summarize_file w2 file_path log.
Proof.
  unfold summarize_file. rewrite (same_read_text _ _ Hsame).
  destruct (read_text w2 file_path) as [content|e]; [|done].
  destruct (len content <=? DIRECT_SUMMARY_THRESHOLD); [apply llm_call_same|].
  unfold bind.
  destruct (lift _ log) as [[chunks|e] log1]; [|done].
  rewrite summarize_chunks_same.
  destruct (summarize_chunks w2 0 chunks [] log1) as [[ss|e] log2]; [|done].
  apply llm_call_same.
Qed.

Lemma process_entries_same recurse1 recurse2 directory indent entries :
  (forall p i log, recurse1 p i log = recurse2 p i log) ->
  forall lines log,
    process_entries w1 recurse1 directory indent entries lines log
    = process_entries w2 recurse2 directory indent entries lines log.
Proof.
  intros Hrec. induction entries as [|entry rest IH]; intros lines log;
    cbn [process_entries]; [done|].
  rewrite (same_isdir _ _ Hsame), (same_isfile _ _ Hsame).
  destruct (isdir w2 (path_join directory entry)).
  - unfold bind. rewrite Hrec.
    destruct (recurse2 _ _ log) as [[sub|e] log']; [apply IH | done].
  - destruct (isfile w2 (path_join directory entry)); [|apply IH].
    unfold bind. rewrite summarize_file_same.
    destruct (summarize_file w2 _ log) as [[s|e] log']; [apply IH | done].
Qed.

Lemma process_directory_same fuel :
  forall directory indent log,
    process_directory w1 fuel directory indent log
    = process_directory w2 fuel directory indent log.
Proof.
  induction fuel as [|fuel IH]; intros directory indent log;
    cbn [process_directory]; [done|].
  pose proof (same_listdir _ _ Hsame directory) as Hl.
  destruct (listdir w1 directory) as [names1|e1],
           (listdir w2 directory) as [names2|e2];
    cbn [same_listing] in Hl; try done.
  - rewrite (sorted_enumeration_order _ _ Hl).
    by apply process_entries_same.
  - by subst.
Qed.

End SameTree.

Lemma demo_backwards_same_tree : same_tree demo demo_backwards.
Proof.
  split; try reflexivity.
  intros p. cbn [listdir demo demo_backwards].
  destruct (demo_listdir p) as [names|e]; cbn [same_listing]; [|done].
  symmetry. apply reverse_Permutation.
Qed.

(** ** The walker returns, and lists every file *)

Lemma summarize_file_returns (w : world) (file_path : str) (log : list call) :
  exists s log', summarize_file w file_path log = (Ok s, log').
Proof.
  unfold summarize_file.
  destruct (read_text w file_path) as [content|e]; [|by eexists _, _].
  destruct (len content <=? DIRECT_SUMMARY_THRESHOLD); [by eexists _, _|].
  destruct (split_total content (snd (splitext file_path))
              DIRECT_SUMMARY_THRESHOLD) as [chunks Hchunks]; [done|].
  destruct (summarize_chunks_calls w chunks 0 [] log)
    as (calls & summaries & _ & _ & _ & Hrun).
  unfold bind, lift. rewrite Hchunks, Hrun. by eexists _, _.
Qed.

Lemma process_entries_files (w : world) (recurse : str -> Z -> M (list str))
    (directory : str) (indent : Z) (entries : list str) :
  (forall entry, entry ∈ entries ->
     isdir w (path_join directory entry) = true ->
     forall i log, exists sub log',
       recurse (path_join directory entry) i log = (Ok sub, log')) ->
  forall lines log,
  exists out log',
    process_entries w recurse directory indent entries lines log
    = (Ok (lines ++ out), log')
    /\ forall entry,
         entry ∈ entries ->
         isdir w (path_join directory entry) = false ->
         isfile w (path_join directory entry) = true ->
         exists la s lb pre post,
           summarize_file w (path_join directory entry) la = (Ok s, lb)
           /\ out = pre
                    ++ [str_repeat (u "    ") indent ++ u "    File: " ++ entry;
                        str_repeat (u "    ") indent ++ u "        Summary: " ++ s]
                    ++ post.
Proof.
  induction entries as [|entry rest IH]; intros Hrec lines log.
  - exists [], log. cbn [process_entries]. unfold ret. rewrite app_nil_r.
    split; [done|]. intros entry Hin. by apply elem_of_nil in Hin.
  - assert (Hrest : forall entry', entry' ∈ rest ->
              isdir w (path_join directory entry') = true ->
              forall i log, exists sub log',
                recurse (path_join directory entry') i log = (Ok sub, log')).
    { intros entry' Hin. apply Hrec. by right. }
    cbn [process_entries].
    destruct (isdir w (path_join directory entry)) eqn:Hdir.
    + destruct (Hrec entry (list_elem_of_here _ _) Hdir (indent + 1) log)
        as (sub & log1 & Hsub).
      destruct (IH Hrest (lines ++ sub) log1) as (out & log2 & Hrun & Hfiles).
      exists (sub ++ out), log2. unfold bind. rewrite Hsub, Hrun, <- app_assoc.
      split; [done|]. intros entry' Hin Hnd Hf.
      apply elem_of_cons in Hin as [-> | Hin]; [congruence|].
      destruct (Hfiles entry' Hin Hnd Hf) as (la & s & lb & pre & post & Hs & ->).
      exists la, s, lb, (sub ++ pre), post. by rewrite <- app_assoc.
    + destruct (isfile w (path_join directory entry)) eqn:Hfile.
      * destruct (summarize_file_returns w (path_join directory entry) log)
          as (s0 & log1 & Hs0).
        destruct (IH Hrest
                    (lines ++ [str_repeat (u "    ") indent ++ u "    File: " ++ entry;
                               str_repeat (u "    ") indent ++ u "        Summary: " ++ s0])
                    log1) as (out & log2 & Hrun & Hfiles).
        eexists (_ ++ out), log2. unfold bind.
        rewrite Hs0, Hrun, <- app_assoc.
        split; [done|]. intros entry' Hin Hnd Hf.
        apply elem_of_cons in Hin as [-> | Hin].
        { by exists log, s0, log1, [], out. }
        destruct (Hfiles entry' Hin Hnd Hf)
          as (la & s & lb & pre & post & Hs & ->).
        eexists la, s, lb, (_ ++ pre), post. by rewrite <- app_assoc.
      * destruct (IH Hrest lines log) as (out & log2 & Hrun & Hfiles).
        exists out, log2. split; [done|]. intros entry' Hin Hnd Hf.
        apply elem_of_cons in Hin as [-> | Hin]; [congruence|].
        by apply Hfiles.
Qed.

Lemma process_directory_walk (w : world) (fuel : nat) :
  forall directory indent log,
    walkable w fuel directory ->
    exists out log',
      process_directory w fuel directory indent log
      = (Ok ((str_repeat (u "    ") indent ++ u "Directory: "
              ++ match basename directory with
                 | [] => directory
                 | _ :: _ => basename directory
                 end) :: out), log')
      /\ forall names entry,
           listdir w directory = Returns names ->
           entry ∈ names ->
           isdir w (path_join directory entry) = false ->
           isfile w (path_join directory entry) = true ->
           exists la s lb pre post,
             summarize_file w (path_join directory entry) la = (Ok s, lb)
             /\ out = pre
                      ++ [str_repeat (u "    ") indent ++ u "    File: " ++ entry;
                          str_repeat (u "    ") indent ++ u "        Summary: " ++ s]
                      ++ post.
Proof.
  induction fuel as [|fuel IH]; intros directory indent log Hwalk;
    inversion Hwalk as [fuel' d e Hlist | fuel' d names Hlist Hsub]; subst.
  - cbn [process_directory]. rewrite Hlist. eexists _, log.
    split; [reflexivity|]. intros names entry Hn. congruence.
  - cbn [process_directory]. rewrite Hlist.
    edestruct (process_entries_files w (process_directory w fuel) directory
                 indent (sorted names)) as (out & log' & Hrun & Hfiles).
    { intros entry Hin Hdir i log0.
      rewrite sorted_Permutation in Hin.
      destruct (IH _ i log0 (Hsub entry Hin Hdir)) as (o & l & Ho & _).
      by eexists _, _. }
    exists out, log'. split; [exact Hrun|].
    intros names' entry [= <-] Hin. apply Hfiles.
    by rewrite sorted_Permutation.
Qed.

Lemma demo_walkable : walkable demo 3 (u "/proj").
Proof.
  eapply walkable_listed; [reflexivity|].
  intros entry Hin Hdir.
  repeat (apply elem_of_cons in Hin as [-> | Hin]);
    try (by apply elem_of_nil in Hin);
    try (vm_compute in Hdir; discriminate Hdir).
  - eapply walkable_listed; [reflexivity|].
    intros entry Hin Hdir'.
    repeat (apply elem_of_cons in Hin as [-> | Hin]);
      try (by apply elem_of_nil in Hin).
    vm_compute in Hdir'. discriminate Hdir'.
  - eapply walkable_unlisted. reflexivity.
Qed.

Lemma str_repeat_indent (depth : Z) :
  0 <= depth ->
  str_repeat (u "    ") depth = replicate (Z.to_nat (4 * depth)) 32%N.
Proof.
  intros Hd. unfold str_repeat.
  replace (Z.to_nat (4 * depth)) with (4 * Z.to_nat depth)%nat by lia.
  change (u "    ") with [32; 32; 32; 32]%N.
  induction (Z.to_nat depth) as [|n IH]; [done|].
  replace (4 * S n)%nat with (S (S (S (S (4 * n))))) by lia.
  cbn [replicate concat app]. by rewrite IH.
Qed.

(** ** What a walk emits, entry by entry *)

Lemma summarize_file_appends (w : world) (file_path : str) (log : list call) :
  exists s new, summarize_file w file_path log = (Ok s, log ++ new).
Proof.
  unfold summarize_file.
  destruct (read_text w file_path) as [content|e];
    [|eexists _, []; unfold ret; by rewrite app_nil_r].
  destruct (len content <=? DIRECT_SUMMARY_THRESHOLD);
    [unfold llm_call; by eexists _, [_]|].
  destruct (split_total content (snd (splitext file_path))
              DIRECT_SUMMARY_THRESHOLD) as [chunks Hchunks]; [done|].
  destruct (summarize_chunks_calls w chunks 0 [] log)
    as (calls & summaries & _ & _ & _ & Hrun).
  unfold bind, lift. rewrite Hchunks, Hrun. unfold llm_call.
  eexists _, (calls ++ [_]). by rewrite (app_assoc log calls).
Qed.

Lemma process_entries_listed (w : world) (recurse : str -> Z -> M (list str))
    (directory : str) (indent : Z) (entries : list str) :
  (forall entry, entry ∈ entries ->
     isdir w (path_join directory entry) = true ->
     forall log, exists sub log',
       recurse (path_join directory entry) (indent + 1) log = (Ok sub, log')
       /\ log `prefix_of` log') ->
  forall lines log,
  exists out log',
    process_entries w recurse directory indent entries lines log
    = (Ok (lines ++ out), log')
    /\ log `prefix_of` log'
    /\ (forall entry,
          entry ∈ entries ->
          isdir w (path_join directory entry) = false ->
          isfile w (path_join directory entry) = true ->
          exists la s lb pre post,
            summarize_file w (path_join directory entry) la = (Ok s, lb)
            /\ log `prefix_of` la /\ lb `prefix_of` log'
            /\ out = pre
                     ++ [str_repeat (u "    ") indent ++ u "    File: " ++ entry;
                         str_repeat (u "    ") indent ++ u "        Summary: " ++ s]
                     ++ post)
    /\ (forall entry,
          entry ∈ entries ->
          isdir w (path_join directory entry) = true ->
          exists la sub lb pre post,
            recurse (path_join directory entry) (indent + 1) la = (Ok sub, lb)
            /\ log `prefix_of` la /\ lb `prefix_of` log'
            /\ out = pre ++ sub ++ post).
Proof.
  induction entries as [|entry rest IH]; intros Hrec lines log.
  - exists [], log. cbn [process_entries]. unfold ret. rewrite app_nil_r.
    split; [done|]. split; [done|].
    split; intros entry Hin; by apply elem_of_nil in Hin.
  - assert (Hrest : forall entry', entry' ∈ rest ->
              isdir w (path_join directory entry') = true ->
              forall log, exists sub log',
                recurse (path_join directory entry') (indent + 1) log
                = (Ok sub, log') /\ log `prefix_of` log').
    { intros entry' Hin. apply Hrec. by right. }
    cbn [process_entries].
    destruct (isdir w (path_join directory entry)) eqn:Hdir.
    + destruct (Hrec entry (list_elem_of_here _ _) Hdir log)
        as (sub & log1 & Hsub & Hgrow1).
      destruct (IH Hrest (lines ++ sub) log1)
        as (out & log2 & Hrun & Hgrow2 & Hfiles & Hdirs).
      exists (sub ++ out), log2. unfold bind.
      rewrite Hsub, Hrun, <- app_assoc.
      split; [done|]. split; [by etrans|]. split.
      * intros entry' Hin Hnd Hf.
        apply elem_of_cons in Hin as [-> | Hin]; [congruence|].
        destruct (Hfiles entry' Hin Hnd Hf)
          as (la & s & lb & pre & post & Hs & Hla & Hlb & Hout).
        exists la, s, lb, (sub ++ pre), post.
        split; [done|]. split; [by etrans|]. split; [done|].
        by rewrite Hout, <- app_assoc.
      * intros entry' Hin Hd.
        apply elem_of_cons in Hin as [-> | Hin].
        { exists log, sub, log1, [], out. by repeat split. }
        destruct (Hdirs entry' Hin Hd)
          as (la & sub' & lb & pre & post & Hs & Hla & Hlb & Hout).
        exists la, sub', lb, (sub ++ pre), post.
        split; [done|]. split; [by etrans|]. split; [done|].
        by rewrite Hout, <- app_assoc.
    + destruct (isfile w (path_join directory entry)) eqn:Hfile.
      * destruct (summarize_file_appends w (path_join directory entry) log)
          as (s0 & new & Hs0).
        destruct (IH Hrest
                    (lines ++ [str_repeat (u "    ") indent ++ u "    File: " ++ entry;
                               str_repeat (u "    ") indent ++ u "        Summary: " ++ s0])
                    (log ++ new)) as (out & log2 & Hrun & Hgrow2 & Hfiles & Hdirs).
        eexists (_ ++ out), log2. unfold bind.
        rewrite Hs0, Hrun, <- app_assoc.
        assert (Hgrow1 : log `prefix_of` log ++ new) by (by eexists).
        split; [done|]. split; [by etrans|]. split.
        -- intros entry' Hin Hnd Hf.
           apply elem_of_cons in Hin as [-> | Hin].
           { exists log, s0, (log ++ new), [], out. by repeat split. }
           destruct (Hfiles entry' Hin Hnd Hf)
             as (la & s & lb & pre & post & Hs & Hla & Hlb & Hout).
           eexists la, s, lb, (_ ++ pre), post.
           split; [done|]. split; [by etrans|]. split; [done|].
           by rewrite Hout, <- app_assoc.
        -- intros entry' Hin Hd.
           apply elem_of_cons in Hin as [-> | Hin]; [congruence|].
           destruct (Hdirs entry' Hin Hd)
             as (la & sub' & lb & pre & post & Hs & Hla & Hlb & Hout).
           eexists la, sub', lb, (_ ++ pre), post.
           split; [done|]. split; [by etrans|]. split; [done|].
           by rewrite Hout, <- app_assoc.
      * destruct (IH Hrest lines log)
          as (out & log2 & Hrun & Hgrow2 & Hfiles & Hdirs).
        exists out, log2. split; [done|]. split; [done|]. split.
        -- intros entry' Hin Hnd Hf.
           apply elem_of_cons in Hin as [-> | Hin]; [congruence|].
           by apply Hfiles.
        -- intros entry' Hin Hd.
           apply elem_of_cons in Hin as [-> | Hin]; [congruence|].
           by apply Hdirs.
Qed.

Lemma process_directory_lists (w : world) (fuel : nat) :
  forall directory indent log,
    walkable w fuel directory ->
    exists out log',
      process_directory w fuel directory indent log
      = (Ok ((str_repeat (u "    ") indent ++ u "Directory: "
              ++ match basename directory with
                 | [] => directory
                 | _ :: _ => basename directory
                 end) :: out), log')
      /\ log `prefix_of` log'
      /\ forall p entry k,
           file_below w directory indent p entry k ->
           exists la s lb pre post,
             summarize_file w p la = (Ok s, lb)
             /\ log `prefix_of` la /\ lb `prefix_of` log'
             /\ out = pre
                      ++ [str_repeat (u "    ") k ++ u "    File: " ++ entry;
                          str_repeat (u "    ") k ++ u "        Summary: " ++ s]
                      ++ post.
Proof.
  induction fuel as [|fuel IH]; intros directory indent log Hwalk;
    inversion Hwalk as [fuel' d e Hlist | fuel' d names Hlist Hsub]; subst.
  - cbn [process_directory]. rewrite Hlist. eexists _, log.
    split; [reflexivity|]. split; [done|].
    intros p entry k Hbelow. inversion Hbelow; congruence.
  - cbn [process_directory]. rewrite Hlist.
    assert (Hrec : forall entry, entry ∈ sorted names ->
              isdir w (path_join directory entry) = true ->
              forall log0, exists sub log',
                process_directory w fuel (path_join directory entry)
                  (indent + 1) log0 = (Ok sub, log')
                /\ log0 `prefix_of` log').
    { intros entry Hin Hdir log0. rewrite sorted_Permutation in Hin.
      destruct (IH _ (indent + 1) log0 (Hsub entry Hin Hdir))
        as (o & l & Ho & Hg & _). by eexists _, _. }
    destruct (process_entries_listed w (process_directory w fuel) directory
                indent (sorted names) Hrec
                [str_repeat (u "    ") indent ++ u "Directory: "
                 ++ match basename directory with
                    | [] => directory
                    | _ :: _ => basename directory
                    end] log)
      as (out & log' & Hrun & Hgrow & Hfiles & Hdirs).
    exists out, log'. split; [exact Hrun|]. split; [done|].
    intros p entry k Hbelow.
    inversion Hbelow
      as [d0 depth0 names0 entry0 Hl0 Hin0 Hnd0 Hf0
         | d0 depth0 names0 sub0 p0 entry0 k0 Hl0 Hin0 Hd0 Hdeep]; subst;
      rewrite Hlist in Hl0; injection Hl0 as <-.
    + apply Hfiles; [by rewrite sorted_Permutation | done | done].
    + destruct (Hdirs sub0)
        as (la & subl & lb & pre & post & Hsubrun & Hla & Hlb & Hout);
        [by rewrite sorted_Permutation | done |].
      destruct (IH _ (indent + 1) la (Hsub sub0 Hin0 Hd0))
        as (o & l & Ho & Hg & Hfiles').
      rewrite Ho in Hsubrun.
      assert (Hsubl : _ :: o = subl /\ l = lb) by (by injection Hsubrun).
      destruct Hsubl as [<- <-].
      destruct (Hfiles' p entry k Hdeep)
        as (la' & s & lb' & pre' & post' & Hs & Hla' & Hlb' & Hout').
      eexists la', s, lb', (pre ++ _ :: pre'), (post' ++ post).
      split; [done|]. split; [by etrans|]. split; [by etrans|].
      rewrite Hout, Hout'.
      rewrite <- !app_assoc, <- !app_comm_cons, <- !app_assoc. reflexivity.
Qed.

Lemma process_entries_blocks (w : world) (recurse : str -> Z -> M (list str))
    (directory : str) (indent : Z) (entries : list str) :
  forall lines log out log',
    process_entries w recurse directory indent entries lines log
    = (Ok out, log') ->
    exists blocks logs,
      length blocks = length entries
      /\ length logs = S (length entries)
      /\ logs !! 0%nat = Some log
      /\ logs !! length entries = Some log'
      /\ out = lines ++ concat blocks
      /\ forall (i : nat) entry,
           entries !! i = Some entry ->
           exists la lb block,
             logs !! i = Some la /\ logs !! S i = Some lb
             /\ blocks !! i = Some block
             /\ entry_block w recurse directory indent entry la block lb.
Proof.
  induction entries as [|entry rest IH]; intros lines log out log'.
  - cbn [process_entries]. unfold ret. intros [= <- <-].
    exists [], [log]. rewrite app_nil_r.
    split; [done|]. split; [done|]. split; [done|]. split; [done|].
    split; [done|]. intros i entry Hi. done.
  - cbn [process_entries]. intros Hrun.
    assert (Hstep : exists block log1,
              entry_block w recurse directory indent entry log block log1
              /\ process_entries w recurse directory indent rest
                   (lines ++ block) log1 = (Ok out, log')).
    { unfold entry_block.
      destruct (isdir w (path_join directory entry)).
      - unfold bind in Hrun.
        destruct (recurse (path_join directory entry) (indent + 1) log)
          as [[sub|e] log1]; [|done]. by exists sub, log1.
      - destruct (isfile w (path_join directory entry)).
        + unfold bind in Hrun.
          destruct (summarize_file w (path_join directory entry) log)
            as [[s|e] log1]; [|done].
          eexists _, log1. split; [by exists s | exact Hrun].
        + exists [], log. by rewrite app_nil_r. }
    destruct Hstep as (block & log1 & Hblock & Hrest).
    destruct (IH _ _ _ _ Hrest)
      as (blocks & logs & Hb & Hl & H0 & Hn & Hout & Hi).
    exists (block :: blocks), (log :: logs).
    split; [cbn [length]; congruence|]. split; [cbn [length]; congruence|].
    split; [done|]. split; [exact Hn|].
    split; [by rewrite Hout, <- app_assoc|].
    intros [|i] entry' Hlook.
    + injection Hlook as <-. by exists log, log1, block.
    + by apply Hi.
Qed.

(** ** The file summarizer and the walker: errors *)

(** C6. When reading the file fails, [summarize_file] raises nothing,
    makes no call and returns ["Error reading file: "] followed by the
    text of the error.  The loop of the walker then puts the two lines of
    the file and goes on with the remaining entries.  And a walk, whatever
    files it cannot read, returns with every regular file that it meets,
    at any depth below the start, in its lines: the [File:] line at the
    depth of the file followed by the [Summary:] line of what
    [summarize_file] returned for the file, run after the calls made
    before the walk and before the end of the walk. *)
Theorem unreadable_file_reported (w : world) (file_path e : str) :
  read_text w file_path = Fails e ->
  (forall log,
     summarize_file w file_path log = (Ok (u "Error reading file: " ++ e), log))
  /\ (forall recurse directory indent entry rest lines log,
        path_join directory entry = file_path ->
        isdir w file_path = false ->
        isfile w file_path = true ->
        process_entries w recurse directory indent (entry :: rest) lines log
        = process_entries w recurse directory indent rest
            (lines ++ [str_repeat (u "    ") indent ++ u "    File: " ++ entry;
                       str_repeat (u "    ") indent ++ u "        Summary: "
                       ++ u "Error reading file: " ++ e])
            log)
  /\ (forall fuel directory indent log,
        walkable w fuel directory ->
        exists lines log',
          process_directory w fuel directory indent log = (Ok lines, log')
          /\ forall p entry k,
               file_below w directory indent p entry k ->
               exists la s lb pre post,
                 summarize_file w p la = (Ok s, lb)
                 /\ log `prefix_of` la /\ lb `prefix_of` log'
                 /\ lines = pre
                      ++ [str_repeat (u "    ") k ++ u "    File: " ++ entry;
                          str_repeat (u "    ") k ++ u "        Summary: " ++ s]
                      ++ post).
Proof.
  intros Hread.
  assert (Hsum : forall log,
            summarize_file w file_path log
            = (Ok (u "Error reading file: " ++ e), log)).
  { intros log. unfold summarize_file. by rewrite Hread. }
  split; [exact Hsum|]. split.
  - intros recurse directory indent entry rest lines log Hpath Hdir Hfile.
    cbn [process_entries]. rewrite Hpath, Hdir, Hfile.
    unfold bind. by rewrite Hsum.
  - intros fuel directory indent log Hwalk.
    destruct (process_directory_lists w fuel directory indent log Hwalk)
      as (out & log' & Hrun & _ & Hfiles).
    eexists _, log'. split; [exact Hrun|].
    intros p entry k Hbelow.
    destruct (Hfiles p entry k Hbelow)
      as (la & s & lb & pre & post & Hs & Hla & Hlb & Hout).
    eexists la, s, lb, (_ :: pre), post.
    split; [exact Hs|]. split; [exact Hla|]. split; [exact Hlb|].
    rewrite Hout. reflexivity.
Qed.

Lemma demo_b_txt_below :
  file_below demo (u "/proj") 0 (u "/proj/lib/b.txt") (u "b.txt") 1.
Proof.
  apply (file_deeper demo (u "/proj") 0
           [u "lib"; u "a.py"; u "locked"; u "blank.PY"; u "bad.bin"]
           (u "lib") (u "/proj/lib/b.txt") (u "b.txt") 1);
    [reflexivity | by left | reflexivity |].
  apply (file_here demo (u "/proj/lib") 1 [u "b.txt"] (u "b.txt"));
    [reflexivity | by left | reflexivity | reflexivity].
Qed.

Lemma unreadable_file_reported_witness :
  summarize_file demo (u "/proj/bad.bin") []
  = (Ok (u "Error reading file: [Errno 13] Permission denied: '/proj/bad.bin'"),
     [])
  /\ exists lines log' s pre post,
       process_directory demo 3 (u "/proj") 0 [] = (Ok lines, log')
       /\ lines = pre
                  ++ [u "        File: b.txt"; u "            Summary: " ++ s]
                  ++ post.
Proof.
  destruct (unreadable_file_reported demo (u "/proj/bad.bin")
              (denied (u "/proj/bad.bin")) eq_refl) as (Hsum & _ & Hwalk).
  split; [exact (Hsum [])|].
  destruct (Hwalk 3%nat (u "/proj") 0 [] demo_walkable)
    as (lines & log' & Hrun & Hfiles).
  destruct (Hfiles (u "/proj/lib/b.txt") (u "b.txt") 1 demo_b_txt_below)
    as (la & s & lb & pre & post & _ & _ & _ & Hlines).
  exists lines, log', s, pre, post. split; [exact Hrun | exact Hlines].
Defined.

(** C7. When listing the directory fails, [process_directory] returns the
    line of the directory and one error line, without any call and without
    going into the directory; in the loop of the parent the two lines are
    added and the remaining entries are processed. *)
Theorem unlistable_directory_reported (w : world) (directory e : str) :
  listdir w directory = Fails e ->
  (forall fuel indent log,
     process_directory w (S fuel) directory indent log
     = (Ok [str_repeat (u "    ") indent ++ u "Directory: "
            ++ match basename directory with
               | [] => directory
               | _ :: _ => basename directory
               end;
            str_repeat (u "    ") indent ++ u "    Error reading directory: "
            ++ e], log))
  /\ (forall fuel parent indent entry rest lines log,
        path_join parent entry = directory ->
        isdir w directory = true ->
        process_entries w (process_directory w (S fuel)) parent indent
          (entry :: rest) lines log
        = process_entries w (process_directory w (S fuel)) parent indent rest
            (lines
             ++ [str_repeat (u "    ") (indent + 1) ++ u "Directory: "
                 ++ match basename directory with
                    | [] => directory
                    | _ :: _ => basename directory
                    end;
                 str_repeat (u "    ") (indent + 1)
                 ++ u "    Error reading directory: " ++ e])
            log).
Proof.
  intros Hlist.
  assert (Hrun : forall fuel indent log,
            process_directory w (S fuel) directory indent log
            = (Ok [str_repeat (u "    ") indent ++ u "Directory: "
                   ++ match basename directory with
                      | [] => directory
                      | _ :: _ => basename directory
                      end;
                   str_repeat (u "    ") indent
                   ++ u "    Error reading directory: " ++ e], log)).
  { intros fuel indent log. cbn [process_directory]. by rewrite Hlist. }
  split; [exact Hrun|].
  intros fuel parent indent entry rest lines log Hpath Hdir.
  cbn [process_entries]. rewrite Hpath, Hdir.
  unfold bind. by rewrite Hrun.
Qed.

Lemma unlistable_directory_reported_witness :
  process_directory demo 1 (u "/proj/locked") 1 []
  = (Ok [u "    Directory: locked";
         u "        Error reading directory: [Errno 13] Permission denied: '/proj/locked'"],
     []).
Proof.
  exact (proj1 (unlistable_directory_reported demo (u "/proj/locked")
                  (denied (u "/proj/locked")) eq_refl) 0%nat 1 []).
Defined.

(** ** The order of the entries *)

(** C8. Two worlds that differ only in the order in which directories
    enumerate their entries give the same lines and the same calls.  The
    lines of a walk are the line of the directory followed by what the
    walker emits for each entry, entry after entry in the lexicographic
    order of the names (the sorted permutation of the listing): the block
    at place [i] is the one of the entry at place [i], and the calls made
    for it come after those of the entries before it. *)
Theorem walk_in_sorted_order (w1 w2 : world) (fuel : nat)
    (directory : str) (indent : Z) (log : list call) :
  same_tree w1 w2 ->
  process_directory w1 fuel directory indent log
  = process_directory w2 fuel directory indent log
  /\ forall names,
       listdir w1 directory = Returns names ->
       walkable w1 (S fuel) directory ->
       exists entries blocks logs lines log',
         process_directory w1 (S fuel) directory indent log = (Ok lines, log')
         /\ Sorted str_le entries
         /\ entries ≡ₚ names
         /\ length blocks = length entries
         /\ length logs = S (length entries)
         /\ logs !! 0%nat = Some log
         /\ logs !! length entries = Some log'
         /\ lines
            = (str_repeat (u "    ") indent ++ u "Directory: "
               ++ match basename directory with
                  | [] => directory
                  | _ :: _ => basename directory
                  end) :: concat blocks
         /\ forall (i : nat) entry,
              entries !! i = Some entry ->
              exists la lb block,
                logs !! i = Some la /\ logs !! S i = Some lb
                /\ blocks !! i = Some block
                /\ entry_block w1 (process_directory w1 fuel) directory indent
                     entry la block lb.
Proof.
  intros Hsame. split; [by apply process_directory_same|].
  intros names Hnames Hwalk.
  destruct (process_directory_walk w1 (S fuel) directory indent log Hwalk)
    as (out & log' & Hrun & _).
  pose proof Hrun as Hloop. cbn [process_directory] in Hloop.
  rewrite Hnames in Hloop.
  apply process_entries_blocks in Hloop
    as (blocks & logs & Hb & Hl & H0 & Hn & Hout & Hi).
  cbn [app] in Hout. injection Hout as ->.
  eexists (sorted names), blocks, logs, _, log'.
  split; [exact Hrun|]. split; [apply sorted_Sorted|].
  split; [apply sorted_Permutation|].
  split; [exact Hb|]. split; [exact Hl|]. split; [exact H0|].
  split; [exact Hn|]. split; [reflexivity | exact Hi].
Qed.

Lemma walk_in_sorted_order_witness :
  process_directory demo 2 (u "/proj") 0 []
  = process_directory demo_backwards 2 (u "/proj") 0 []
  /\ exists blocks lines log',
       process_directory demo 3 (u "/proj") 0 [] = (Ok lines, log')
       /\ lines = u "Directory: proj" :: concat blocks
       /\ length blocks = 5%nat.
Proof.
  destruct (walk_in_sorted_order demo demo_backwards 2 (u "/proj") 0 []
              demo_backwards_same_tree) as [Heq Hord].
  split; [exact Heq|].
  destruct (Hord [u "lib"; u "a.py"; u "locked"; u "blank.PY"; u "bad.bin"]
              eq_refl demo_walkable)
    as (entries & blocks & logs & lines & log' & Hrun & _ & Hperm & Hlen & _
        & _ & _ & Hlines & _).
  exists blocks, lines, log'. split; [exact Hrun|]. split; [exact Hlines|].
  exact (eq_trans Hlen (Permutation_length Hperm)).
Defined.

(** ** The line of the directory *)

(** C9, as the code has it.  For a depth that is not negative, the first
    line of a walk that stays within the recursion limit is [4 * depth]
    blanks, then ["Directory: "], then the base name of the path, or the
    path as it was given when its base name is empty (a path that ends in
    a slash). *)
Theorem directory_line_first (w : world) (fuel : nat) (directory : str)
    (depth : Z) (log : list call) :
  0 <= depth ->
  walkable w fuel directory ->
  exists rest log',
    process_directory w fuel directory depth log
    = (Ok ((replicate (Z.to_nat (4 * depth)) 32%N ++ u "Directory: "
            ++ match basename directory with
               | [] => directory
               | _ :: _ => basename directory
               end) :: rest), log').
Proof.
  intros Hdepth Hwalk.
  destruct (process_directory_walk w fuel directory depth log Hwalk)
    as (out & log' & Hrun & _).
  exists out, log'. by rewrite <- str_repeat_indent.
Qed.

Lemma directory_line_first_witness :
  first_line (process_directory demo 3 (u "/proj") 0 [])
  = Some (u "Directory: proj").
Proof.
  destruct (directory_line_first demo 3 (u "/proj") 0 []) as (rest & log' & Hrun).
  - lia.
  - exact demo_walkable.
  - rewrite Hrun. reflexivity.
Defined.

(** C9 as it is stated does not hold for a path that ends in a slash: the
    base name of ["notes/"] is empty and the line shows the whole path. *)
Lemma directory_line_trailing_slash :
  first_line (process_directory notes 1 (u "notes/") 0 [])
  = Some (u "Directory: notes/")
  /\ first_line (process_directory notes 1 (u "notes/") 0 [])
     <> Some (str_repeat (u "    ") 0 ++ u "Directory: " ++ basename (u "notes/")).
Proof. split; [vm_compute; reflexivity | vm_compute; discriminate]. Qed.

Example notes_walk :
  fst (process_directory notes 1 (u "notes/") 0 [])
  = Ok [u "Directory: notes/";
        u "    File: todo.txt";
        u "        Summary: LLM_Summary (truncated): Please provide a concise summary of the following code:  buy milk..."].
Proof. vm_compute. reflexivity. Qed.

(** * Further properties of the splitter *)

Lemma slice_window_exact (s : str) a n :
  0 < n -> 0 <= a <= len s ->
  len (slice s a (a + n)) = Z.min n (len s - a).
Proof.
  intros Hn Ha. unfold slice, len at 1. rewrite length_take, length_drop.
  unfold clamp_index, len in *.
  destruct (Z.ltb_spec a 0), (Z.ltb_spec (a + n) 0); lia.
Qed.

Lemma range_length_last L n :
  0 < n -> 0 < L ->
  range_length 0 L n = (L - 1) / n + 1 /\ n * ((L - 1) / n) <= L - 1.
Proof.
  intros Hn HL. unfold range_length.
  destruct (Z.ltb_spec 0 n); [|lia]. destruct (Z.ltb_spec 0 L); [|lia].
  rewrite Z.sub_0_r. split; [done|]. apply Z.mul_div_le. lia.
Qed.

(** The windows of a non-empty text for a positive size: how many there
    are, where each one starts and how long it is. *)
Lemma fixed_size_chunks_windows (s : str) n :
  0 < n -> 0 < len s ->
  exists ws,
    fixed_size_chunks s n = Ok ws
    /\ Z.of_nat (length ws) = (len s - 1) / n + 1
    /\ forall (i : nat) c,
         ws !! i = Some c ->
         c = slice s (Z.of_nat i * n) (Z.of_nat i * n + n)
         /\ len c = Z.min n (len s - Z.of_nat i * n)
         /\ 0 < len c.
Proof.
  intros Hn Hs. unfold fixed_size_chunks, py_range.
  destruct (Z.eqb_spec n 0); [lia|].
  destruct (range_length_last (len s) n Hn Hs) as [Hm Hlast].
  assert (0 <= (len s - 1) / n) by (apply Z.div_pos; lia).
  eexists. split; [reflexivity|]. split.
  - rewrite !length_map, length_seq, Hm. lia.
  - intros i c Hi. rewrite !list_lookup_fmap in Hi.
    destruct (seq 0 (Z.to_nat (range_length 0 (len s) n)) !! i) as [k|] eqn:Hk;
      [|done].
    apply lookup_seq in Hk as [-> Hlt]. cbn in Hi. injection Hi as <-.
    rewrite Hm in Hlt. rewrite !Z.add_0_l.
    assert (Z.of_nat i * n <= len s - 1) by nia.
    rewrite slice_window_exact by lia. split; [done|]. lia.
Qed.

Lemma split_other_concat_witness :
  exists chunks,
    split_into_logical_chunks (u "abcdefg") (u ".txt") 3 = Ok chunks
    /\ concat chunks = u "abcdefg".
Proof.
  apply (split_other_concat (u "abcdefg") (u ".txt") 3).
  - vm_compute. discriminate.
  - lia.
Defined.

Lemma split_other_windows_count (content ext : str) (n : Z) :
  lower ext <> u ".py" -> 0 < n -> n < len content ->
  exists chunks,
    split_into_logical_chunks content ext n = Ok chunks
    /\ Z.of_nat (length chunks) = (len content - 1) / n + 1.
Proof.
  intros Hext Hn Hlen. unfold split_into_logical_chunks.
  rewrite bool_decide_eq_false_2 by done.
  destruct (Z.gtb_spec (len content) n); [|lia].
  destruct (fixed_size_chunks_windows content n) as (ws & Hrun & Hcount & _);
    [lia | lia |]. eauto.
Qed.

(** X2. Outside the [.py] branch, a content longer than a positive bound
    [n] is cut into [(len - 1) / n + 1] windows; the window at index [i]
    starts at [i * n] and has [min n (len - i * n)] characters, so all
    windows but the last have exactly [n] and the last one is not empty. *)
Theorem split_other_windows (content ext : str) (n : Z) :
  lower ext <> u ".py" -> 0 < n -> n < len content ->
  exists chunks,
    split_into_logical_chunks content ext n = Ok chunks
    /\ Z.of_nat (length chunks) = (len content - 1) / n + 1
    /\ forall (i : nat) c,
         chunks !! i = Some c ->
         c = slice content (Z.of_nat i * n) (Z.of_nat i * n + n)
         /\ len c = Z.min n (len content - Z.of_nat i * n)
         /\ 0 < len c.
Proof.
  intros Hext Hn Hlen. unfold split_into_logical_chunks.
  rewrite bool_decide_eq_false_2 by done.
  destruct (Z.gtb_spec (len content) n); [|lia].
  apply fixed_size_chunks_windows; lia.
Qed.

Lemma split_other_windows_witness :
  exists chunks,
    split_into_logical_chunks (u "abcdefg") (u ".txt") 3 = Ok chunks
    /\ Z.of_nat (length chunks) = 3.
Proof.
  destruct (split_other_windows (u "abcdefg") (u ".txt") 3)
    as (chunks & Hrun & Hcount & _).
  - vm_compute. discriminate.
  - lia.
  - vm_compute. reflexivity.
  - exists chunks. split; [exact Hrun|]. rewrite Hcount. reflexivity.
Defined.

Lemma fixed_size_chunks_negative (s : str) n :
  n < 0 -> fixed_size_chunks s n = Ok [].
Proof.
  intros Hn. unfold fixed_size_chunks, py_range, range_length.
  pose proof (len_nonneg s).
  destruct (Z.eqb_spec n 0); [lia|].
  destruct (Z.ltb_spec 0 n); [lia|].
  destruct (Z.ltb_spec (len s) 0); [lia|]. reflexivity.
Qed.

Lemma chunk_parts_negative parts n acc :
  n < 0 -> chunk_parts parts n acc = Ok acc.
Proof.
  intros Hn. revert acc.
  induction parts as [|part rest IH]; intros acc; cbn [chunk_parts]; [done|].
  destruct (strip part) as [|c p]; [apply IH|].
  pose proof (len_nonneg (c :: p)).
  destruct (Z.gtb_spec (len (c :: p)) n); [|lia].
  rewrite fixed_size_chunks_negative by done. rewrite app_nil_r. apply IH.
Qed.

(** X3. With a negative bound the splitter returns no chunk at all,
    whatever the content and the extension: [range] with a negative step
    is empty, and the content is dropped without an error. *)
Theorem split_negative_bound (content ext : str) (n : Z) :
  n < 0 -> split_into_logical_chunks content ext n = Ok [].
Proof.
  intros Hn. unfold split_into_logical_chunks. case_bool_decide.
  - by apply chunk_parts_negative.
  - pose proof (len_nonneg content).
    destruct (Z.gtb_spec (len content) n); [|lia].
    by apply fixed_size_chunks_negative.
Qed.

Lemma split_negative_bound_witness :
  split_into_logical_chunks (u "def f(): pass") (u ".py") (-1) = Ok [].
Proof. apply split_negative_bound. lia. Defined.

(** ** The parts of [pattern.split] *)

Lemma split_scan_parts bol seg (s : str) :
  concat (evens (split_scan bol seg s)) = seg ++ s
  /\ Forall (fun g => g = u "def " \/ g = u "class ")
            (odds (split_scan bol seg s)).
Proof.
  revert bol seg. induction s as [|c s IH]; intros bol seg.
  - cbn. by rewrite !app_nil_r.
  - cbn [split_scan].
    destruct (match_boundary bol (c :: s)) as [g|] eqn:Hg.
    + destruct (IH (is_newline c) [c]) as [Hcat Hodd].
      cbn [evens odds concat]. rewrite Hcat. split; [done|].
      constructor; [|done].
      unfold match_boundary in Hg. destruct bol; [|done].
      repeat case_bool_decide; simplify_eq; auto.
    + destruct (IH (is_newline c) (seg ++ [c])) as [Hcat Hodd].
      rewrite Hcat, <- app_assoc. done.
Qed.

(** X4. The list that [pattern.split] gives has the segments of the
    content at its even places (in order they spell the content) and, at
    every odd place, the keyword ["def "] or ["class "] that the group of
    the pattern captured: these are the parts that the content does not
    account for. *)
Theorem pattern_split_parts (content : str) :
  concat (evens (pattern_split content)) = content
  /\ Forall (fun g => g = u "def " \/ g = u "class ")
            (odds (pattern_split content)).
Proof. apply (split_scan_parts true [] content). Qed.

(** ** A bound of zero, and empty chunks *)

Lemma lstrip_nil_space (s : str) :
  lstrip s = [] -> Forall (fun c => isspace c = true) s.
Proof.
  induction s as [|c s IH]; cbn [lstrip]; [done|].
  destruct (isspace c) eqn:Hc; [|done]. intros H. constructor; auto.
Qed.

Lemma lstrip_space_inv (s : str) :
  Forall (fun c => isspace c = true) (lstrip s) ->
  Forall (fun c => isspace c = true) s.
Proof.
  induction s as [|c s IH]; cbn [lstrip]; [done|].
  destruct (isspace c) eqn:Hc; [|done]. intros H. constructor; auto.
Qed.

Lemma strip_nil_space (s : str) :
  strip s = [] -> Forall (fun c => isspace c = true) s.
Proof.
  unfold strip, rstrip. intros H.
  apply (f_equal (@rev codepoint)) in H. rewrite rev_involutive in H.
  cbn [rev] in H. apply lstrip_nil_space in H.
  apply Forall_rev in H. rewrite rev_involutive in H.
  by apply lstrip_space_inv.
Qed.

Lemma evens_elem_of {A : Type} (n : nat) :
  forall (l : list A) x, (length l <= n)%nat -> x ∈ evens l -> x ∈ l.
Proof.
  induction n as [|n IH]; intros [|a [|b l]] x Hlen Hx; cbn in *;
    try done; try lia.
  apply elem_of_cons in Hx as [-> | Hx]; [by left|].
  right; right. apply IH; [lia | done].
Qed.

Lemma pattern_split_visible (content : str) :
  Exists (fun c => isspace c = false) content ->
  Exists (fun part => strip part <> []) (pattern_split content).
Proof.
  intros Hvis.
  destruct (decide (Forall (fun part => strip part = []) (pattern_split content)))
    as [Hall|Hnot]; [|by apply not_Forall_Exists in Hnot; [|apply _]].
  exfalso.
  assert (Hsp : Forall (fun c => isspace c = true) content).
  { pose proof (proj1 (split_scan_parts true [] content)) as Hcat.
    cbn [app] in Hcat. rewrite <- Hcat.
    apply Forall_concat, Forall_forall. intros part Hpart.
    apply strip_nil_space.
    rewrite Forall_forall in Hall. apply Hall.
    by apply (evens_elem_of (length (pattern_split content))). }
  apply Exists_exists in Hvis as (c & Hc & Hns).
  rewrite Forall_forall in Hsp. specialize (Hsp c Hc). congruence.
Qed.

Lemma chunk_parts_zero parts acc :
  Exists (fun part => strip part <> []) parts ->
  chunk_parts parts 0 acc = Raise ValueError.
Proof.
  intros Hex. revert acc.
  induction parts as [|part rest IH]; intros acc.
  - by apply Exists_nil in Hex.
  - cbn [chunk_parts]. destruct (strip part) as [|c p] eqn:Hp.
    + apply IH. apply Exists_cons in Hex as [Hhd | Htl]; [done | done].
    + destruct (Z.gtb_spec (len (c :: p)) 0) as [_|Hle]; [reflexivity|].
      unfold len in Hle. cbn [length] in Hle. lia.
Qed.

(** X5. With a bound of zero the splitter raises [ValueError] (from
    [range] with step zero) for every content that has a character other
    than white space, on both branches. *)
Theorem split_zero_bound (content ext : str) :
  Exists (fun c => isspace c = false) content ->
  split_into_logical_chunks content ext 0 = Raise ValueError.
Proof.
  intros Hvis. unfold split_into_logical_chunks. case_bool_decide.
  - by apply chunk_parts_zero, pattern_split_visible.
  - destruct (Z.gtb_spec (len content) 0) as [_|Hle]; [reflexivity|].
    unfold len in Hle. destruct Hvis as [c s _ | c s _]; cbn [length] in Hle; lia.
Qed.

Lemma split_zero_bound_witness :
  split_into_logical_chunks (u "x = 1") (u ".py") 0 = Raise ValueError.
Proof.
  apply split_zero_bound. apply Exists_cons_hd. vm_compute. reflexivity.
Defined.

Lemma fixed_size_chunks_nonempty (s : str) n ws :
  s <> [] -> fixed_size_chunks s n = Ok ws -> Forall (fun c => c <> []) ws.
Proof.
  intros Hs Hrun.
  destruct (Z.lt_trichotomy n 0) as [Hn | [-> | Hn]].
  - rewrite fixed_size_chunks_negative in Hrun by done.
    injection Hrun as <-. constructor.
  - discriminate Hrun.
  - destruct (fixed_size_chunks_windows s n Hn) as (ws' & Hrun' & _ & Hw).
    { unfold len. destruct s; [done | cbn [length]; lia]. }
    rewrite Hrun in Hrun'. injection Hrun' as <-.
    apply Forall_lookup. intros i c Hi.
    destruct (Hw i c Hi) as (_ & _ & Hpos). intros ->.
    unfold len in Hpos. cbn [length] in Hpos. lia.
Qed.

Lemma chunk_parts_nonempty parts n acc chunks :
  chunk_parts parts n acc = Ok chunks ->
  Forall (fun c => c <> []) acc ->
  Forall (fun c => c <> []) chunks.
Proof.
  revert acc. induction parts as [|part rest IH]; intros acc;
    cbn [chunk_parts].
  - by intros [= <-].
  - destruct (strip part) as [|c p] eqn:Hp; [apply IH|].
    destruct (len (c :: p) >? n).
    + destruct (fixed_size_chunks (c :: p) n) as [ws|e] eqn:Hws; [|done].
      intros Hrun Hacc. apply (IH _ Hrun). apply Forall_app. split; [done|].
      by apply (fixed_size_chunks_nonempty (c :: p) n).
    + intros Hrun Hacc. apply (IH _ Hrun). apply Forall_app. split; [done|].
      by repeat constructor.
Qed.

(** X6. The splitter returns no empty chunk, except the single empty chunk
    for an empty content outside the [.py] branch. *)
Theorem split_no_empty_chunk (content ext : str) (n : Z) (chunks : list str) :
  split_into_logical_chunks content ext n = Ok chunks ->
  content <> [] \/ lower ext = u ".py" ->
  Forall (fun c => c <> []) chunks.
Proof.
  unfold split_into_logical_chunks. intros Hrun Hcase.
  case_bool_decide as Hext.
  - by apply (chunk_parts_nonempty _ _ _ _ Hrun).
  - destruct Hcase as [Hne | Hpy]; [|done].
    destruct (len content >? n).
    + by apply (fixed_size_chunks_nonempty content n).
    + injection Hrun as <-. by repeat constructor.
Qed.

Lemma split_no_empty_chunk_witness :
  Forall (fun c : str => c <> []) [u "x"; u "def"; u "def f"].
Proof.
  apply (split_no_empty_chunk (u "x" ++ [newline] ++ u "def f") (u ".py") 10000).
  - vm_compute. reflexivity.
  - right. vm_compute. reflexivity.
Defined.

(** * Further properties of the file summarizer *)

(** X7. With a collaborator that answers every call, [summarize_file]
    never raises.  When the file cannot be read it makes no call; when it
    can, it makes at least one call and returns the collaborator's answer
    to the last call it made. *)
Theorem summarize_file_last_answer (w : world) (file_path : str)
    (log : list call) :
  exists s new,
    summarize_file w file_path log = (Ok s, log ++ new)
    /\ match read_text w file_path with
       | Fails e => new = [] /\ s = u "Error reading file: " ++ e
       | Returns _ =>
           exists calls c,
             new = calls ++ [c] /\ s = respond w (log ++ calls) c
       end.
Proof.
  unfold summarize_file.
  destruct (read_text w file_path) as [content|e].
  - destruct (len content <=? DIRECT_SUMMARY_THRESHOLD).
    + unfold llm_call. eexists _, [_]. split; [reflexivity|].
      eexists [], _. split; [reflexivity|]. by rewrite app_nil_r.
    + destruct (split_total content (snd (splitext file_path))
                  DIRECT_SUMMARY_THRESHOLD) as [chunks Hchunks]; [done|].
      destruct (summarize_chunks_calls w chunks 0 [] log)
        as (calls & summaries & _ & _ & _ & Hrun).
      unfold bind, lift. rewrite Hchunks, Hrun. unfold llm_call.
      eexists _, (calls ++ [_]).
      split; [rewrite (app_assoc log calls); reflexivity|].
      eexists calls, _. split; reflexivity.
  - exists (u "Error reading file: " ++ e), []. unfold ret.
    by rewrite app_nil_r.
Qed.

Lemma fixed_parameters_call (prompt : str) (cap : Z) :
  cap = 150 \/ cap = 200 ->
  fixed_parameters (Call prompt assistant (1 # 2) cap).
Proof. intros Hcap. unfold fixed_parameters. cbn. auto. Qed.

Lemma summarize_chunks_fixed (w : world) (chunks : list str) idx acc log :
  exists new,
    snd (summarize_chunks w idx chunks acc log) = log ++ new
    /\ Forall fixed_parameters new.
Proof.
  destruct (summarize_chunks_calls w chunks idx acc log)
    as (calls & summaries & Hc & _ & Hi & Hrun).
  exists calls. rewrite Hrun. split; [done|].
  apply Forall_lookup. intros i c Hlook.
  destruct (lookup_lt_is_Some_2 chunks i) as [chunk Hchunk].
  { rewrite <- Hc. by apply lookup_lt_Some in Hlook. }
  destruct (Hi i chunk Hchunk) as [Hcall _].
  rewrite Hlook in Hcall. injection Hcall as ->.
  apply fixed_parameters_call. auto.
Qed.

Lemma summarize_file_fixed (w : world) (file_path : str) (log : list call) :
  exists new,
    snd (summarize_file w file_path log) = log ++ new
    /\ Forall fixed_parameters new.
Proof.
  unfold summarize_file.
  destruct (read_text w file_path) as [content|e];
    [|exists []; by rewrite app_nil_r].
  destruct (len content <=? DIRECT_SUMMARY_THRESHOLD).
  { unfold llm_call. eexists [_]. split; [reflexivity|].
    constructor; [apply fixed_parameters_call; auto | constructor]. }
  unfold bind, lift.
  destruct (split_into_logical_chunks _ _ _) as [chunks|e];
    [|exists []; by rewrite app_nil_r].
  destruct (summarize_chunks_fixed w chunks 0 [] log) as (new & Hnew & Hfix).
  destruct (summarize_chunks w 0 chunks [] log) as [[ss|e] log1];
    cbn [snd] in Hnew; subst log1; [|by exists new].
  unfold llm_call. eexists (new ++ [_]).
  split; [cbn [snd]; rewrite (app_assoc log new); reflexivity|].
  apply Forall_app. split; [done|].
  constructor; [apply fixed_parameters_call; auto | constructor].
Qed.

(** X8. For a readable file longer than the threshold whose extension is
    not [.py], [summarize_file] makes [(len - 1) / 10000 + 2] calls: one
    for each window of 10000 characters and the synthesis. *)
Theorem summarize_large_other_calls (w : world) (file_path content : str)
    (log : list call) :
  read_text w file_path = Returns content ->
  DIRECT_SUMMARY_THRESHOLD < len content ->
  lower (snd (splitext file_path)) <> u ".py" ->
  Z.of_nat (length (snd (summarize_file w file_path log)))
  = Z.of_nat (length log) + (len content - 1) / 10000 + 2.
Proof.
  intros Hread Hlen Hext.
  destruct (split_other_windows_count content (snd (splitext file_path))
              DIRECT_SUMMARY_THRESHOLD Hext) as (chunks & Hsplit & Hcount);
    [done | done |].
  destruct (summarize_chunks_calls w chunks 0 [] log)
    as (calls & summaries & Hc & _ & _ & Hrun).
  unfold summarize_file. rewrite Hread.
  destruct (Z.leb_spec (len content) DIRECT_SUMMARY_THRESHOLD); [lia|].
  unfold bind, lift. rewrite Hsplit, Hrun. unfold llm_call. cbn [snd].
  rewrite !length_app, Hc. cbn [length].
  unfold DIRECT_SUMMARY_THRESHOLD in Hcount. lia.
Qed.

Lemma summarize_large_other_calls_witness :
  Z.of_nat (length (snd (summarize_file demo (u "/proj/lib/b.txt") []))) = 6.
Proof.
  rewrite (summarize_large_other_calls demo (u "/proj/lib/b.txt")
             (replicate (Z.to_nat 50000) 120%N) []).
  - vm_compute. reflexivity.
  - apply (bool_decide_unpack _). vm_compute. exact I.
  - vm_compute. reflexivity.
  - vm_compute. discriminate.
Defined.

(** * The stub of the collaborator *)

(** X9. The answer of the stub [llm_call] of the source starts with
    ["LLM_Summary (truncated): "], shows at most 75 characters of the
    prompt, has no newline in it and is at most 103 characters long. *)
Theorem stub_answer_one_line (log : list call) (c : call) :
  (u "LLM_Summary (truncated): " `prefix_of` stub_respond log c)
  /\ (newline ∉ stub_respond log c)
  /\ len (stub_respond log c) <= 103.
Proof.
  unfold stub_respond. split; [by eexists|]. split.
  - rewrite !elem_of_app. intros [Hin | [Hin | Hin]].
    + vm_compute in Hin. repeat (apply elem_of_cons in Hin as [Hin | Hin];
        [discriminate Hin|]). by apply elem_of_nil in Hin.
    + unfold replace_char in Hin. apply list_elem_of_fmap in Hin as (x & Hx & _).
      unfold newline in *. destruct (N.eqb_spec x 10); [discriminate Hx | congruence].
    + vm_compute in Hin. repeat (apply elem_of_cons in Hin as [Hin | Hin];
        [discriminate Hin|]). by apply elem_of_nil in Hin.
  - pose proof (slice_window_len (call_prompt c) 0 75 ltac:(lia)) as Hs.
    unfold len in *. rewrite !length_app. unfold replace_char.
    rewrite length_map. change (0 + 75) with 75 in Hs.
    change (length (u "LLM_Summary (truncated): ")) with 25%nat.
    change (length (u "...")) with 3%nat.
    unfold str, codepoint in *. lia.
Qed.

(** * Further properties of the walker *)

Lemma process_entries_fixed (w : world) (recurse : str -> Z -> M (list str))
    (directory : str) (indent : Z) (entries : list str) :
  (forall p i log, exists new,
     snd (recurse p i log) = log ++ new /\ Forall fixed_parameters new) ->
  forall lines log,
  exists new,
    snd (process_entries w recurse directory indent entries lines log)
    = log ++ new
    /\ Forall fixed_parameters new.
Proof.
  intros Hrec. induction entries as [|entry rest IH]; intros lines log;
    cbn [process_entries].
  - exists []. by rewrite app_nil_r.
  - destruct (isdir w (path_join directory entry)).
    + unfold bind.
      destruct (Hrec (path_join directory entry) (indent + 1) log)
        as (new1 & Hnew1 & Hfix1).
      destruct (recurse _ _ log) as [[sub|e] log1]; cbn [snd] in Hnew1;
        subst log1; [|by exists new1].
      destruct (IH (lines ++ sub) (log ++ new1)) as (new2 & Hnew2 & Hfix2).
      exists (new1 ++ new2). rewrite Hnew2, <- app_assoc.
      split; [done|]. by apply Forall_app.
    + destruct (isfile w (path_join directory entry)); [|apply IH].
      unfold bind.
      destruct (summarize_file_fixed w (path_join directory entry) log)
        as (new1 & Hnew1 & Hfix1).
      destruct (summarize_file w _ log) as [[s|e] log1]; cbn [snd] in Hnew1;
        subst log1; [|by exists new1].
      match goal with
      | |- context [process_entries _ _ _ _ _ ?l ?g] =>
          destruct (IH l g) as (new2 & Hnew2 & Hfix2)
      end.
      exists (new1 ++ new2). rewrite Hnew2, <- app_assoc.
      split; [done|]. by apply Forall_app.
Qed.

(** X10. A walk only adds calls to those made before it, whether it
    returns or raises, and every call it makes has the system message
    ["You are a code summarization assistant."], the temperature 0.5 and
    an output cap of 150 or 200. *)
Theorem walk_calls_fixed_parameters (w : world) (fuel : nat)
    (directory : str) (indent : Z) (log : list call) :
  exists new,
    snd (process_directory w fuel directory indent log) = log ++ new
    /\ Forall fixed_parameters new.
Proof.
  revert directory indent log.
  induction fuel as [|fuel IH]; intros directory indent log;
    cbn [process_directory].
  - exists []. by rewrite app_nil_r.
  - destruct (listdir w directory) as [names|e].
    + by apply process_entries_fixed.
    + exists []. by rewrite app_nil_r.
Qed.

Lemma str_repeat_blanks (indent : Z) :
  str_repeat (u "    ") indent = replicate (4 * Z.to_nat indent) 32%N.
Proof.
  unfold str_repeat. change (u "    ") with [32; 32; 32; 32]%N.
  induction (Z.to_nat indent) as [|n IH]; [done|].
  replace (4 * S n)%nat with (S (S (S (S (4 * n))))) by lia.
  cbn [replicate concat app]. by rewrite IH.
Qed.

Lemma directory_line_shape (indent : Z) (name : str) :
  directory_or_error_line (str_repeat (u "    ") indent ++ u "Directory: " ++ name).
Proof. rewrite str_repeat_blanks. eexists _, _. by left. Qed.

Lemma error_line_shape (indent : Z) (e : str) :
  directory_or_error_line
    (str_repeat (u "    ") indent ++ u "    Error reading directory: " ++ e).
Proof.
  rewrite str_repeat_blanks.
  exists (4 * Z.to_nat indent + 4)%nat, e. right.
  rewrite replicate_add, <- app_assoc. reflexivity.
Qed.

Lemma process_entries_no_files (w : world) (recurse : str -> Z -> M (list str))
    (directory : str) (indent : Z) (entries : list str) :
  (forall p, isfile w p = true -> isdir w p = true) ->
  (forall p i log r log',
     recurse p i log = (r, log') ->
     log' = log
     /\ forall sub, r = Ok sub -> Forall directory_or_error_line sub) ->
  forall lines log r log',
    process_entries w recurse directory indent entries lines log = (r, log') ->
    Forall directory_or_error_line lines ->
    log' = log
    /\ forall out, r = Ok out -> Forall directory_or_error_line out.
Proof.
  intros Hnofile Hrec.
  induction entries as [|entry rest IH]; intros lines log r log';
    cbn [process_entries].
  - unfold ret. intros [= <- <-] Hlines. split; [done|]. by intros out [= <-].
  - destruct (isdir w (path_join directory entry)) eqn:Hdir.
    + unfold bind.
      destruct (recurse (path_join directory entry) (indent + 1) log)
        as [[sub|e] log1] eqn:Hsub;
        destruct (Hrec _ _ _ _ _ Hsub) as [-> Hshape].
      * intros Hrun Hlines. apply (IH _ _ _ _ Hrun).
        apply Forall_app. split; [done|]. by apply Hshape.
      * intros [= <- <-] _. split; [done|]. by intros out.
    + destruct (isfile w (path_join directory entry)) eqn:Hfile; [|apply IH].
      apply Hnofile in Hfile. congruence.
Qed.

(** X11. When the file system shows no regular file (every path that
    [isfile] accepts is a directory, which the walker tests first), a walk
    makes no call at all, and every line it returns announces a directory
    or reports one that could not be listed: there is no [File:] and no
    [Summary:] line. *)
Theorem walk_without_files (w : world) (fuel : nat) (directory : str)
    (indent : Z) (log : list call) (r : result (list str))
    (log' : list call) :
  (forall p, isfile w p = true -> isdir w p = true) ->
  process_directory w fuel directory indent log = (r, log') ->
  log' = log
  /\ forall lines, r = Ok lines -> Forall directory_or_error_line lines.
Proof.
  intros Hnofile. revert directory indent log r log'.
  induction fuel as [|fuel IH]; intros directory indent log r log';
    cbn [process_directory].
  - unfold raise. intros [= <- <-]. split; [done|]. by intros lines.
  - destruct (listdir w directory) as [names|e].
    + intros Hrun.
      apply (process_entries_no_files w _ _ _ _ Hnofile IH _ _ _ _ Hrun).
      constructor; [apply directory_line_shape | constructor].
    + unfold ret. intros [= <- <-]. split; [done|]. intros lines [= <-].
      constructor; [apply directory_line_shape|].
      constructor; [apply error_line_shape | constructor].
Qed.

Lemma walk_without_files_witness :
  snd (process_directory demo_directories_only 3 (u "/proj") 0 []) = [].
Proof.
  destruct (process_directory demo_directories_only 3 (u "/proj") 0 [])
    as [r log'] eqn:Hrun.
  apply (walk_without_files demo_directories_only 3 (u "/proj") 0 [] r log');
    [|exact Hrun].
  intros p Hfile. discriminate Hfile.
Defined.

(** ** Indentation *)

Lemma blanks_prefix_shorter (a b : nat) (l : str) :
  (a <= b)%nat ->
  replicate b 32%N `prefix_of` l -> replicate a 32%N `prefix_of` l.
Proof.
  intros Hab [k ->]. replace b with (a + (b - a))%nat by lia.
  rewrite replicate_add, <- app_assoc. by apply prefix_app_r.
Qed.

Lemma entry_line_indented (indent : Z) (text rest : str) :
  replicate (4 * (Z.to_nat indent + 1)) 32%N
    `prefix_of` str_repeat (u "    ") indent ++ (replicate 4 32%N ++ text) ++ rest.
Proof.
  rewrite str_repeat_blanks.
  replace (4 * (Z.to_nat indent + 1))%nat with (4 * Z.to_nat indent + 4)%nat
    by lia.
  rewrite replicate_add. exists (text ++ rest).
  by rewrite <- !app_assoc.
Qed.

Lemma process_entries_indented (w : world)
    (recurse : str -> Z -> M (list str)) (directory : str) (indent : Z)
    (entries : list str) :
  (forall p log sub log',
     recurse p (indent + 1) log = (Ok sub, log') ->
     Forall (fun l => replicate (4 * (Z.to_nat indent + 1)) 32%N `prefix_of` l)
            sub) ->
  forall lines log out log',
    process_entries w recurse directory indent entries lines log
    = (Ok out, log') ->
    exists added,
      out = lines ++ added
      /\ Forall (fun l => replicate (4 * (Z.to_nat indent + 1)) 32%N `prefix_of` l)
                added.
Proof.
  intros Hrec. induction entries as [|entry rest IH]; intros lines log out log';
    cbn [process_entries].
  - unfold ret. intros [= <- <-]. exists []. by rewrite app_nil_r.
  - destruct (isdir w (path_join directory entry)).
    + unfold bind.
      destruct (recurse (path_join directory entry) (indent + 1) log)
        as [[sub|e] log1] eqn:Hsub; [|done].
      intros Hrun. destruct (IH _ _ _ _ Hrun) as (added & -> & Hadded).
      exists (sub ++ added). rewrite <- app_assoc. split; [done|].
      apply Forall_app. split; [|done]. by apply (Hrec _ _ _ _ Hsub).
    + destruct (isfile w (path_join directory entry)); [|apply IH].
      unfold bind.
      destruct (summarize_file w (path_join directory entry) log)
        as [[s|e] log1]; [|done].
      intros Hrun. destruct (IH _ _ _ _ Hrun) as (added & -> & Hadded).
      eexists (_ :: _ :: added). rewrite <- app_assoc. split; [reflexivity|].
      constructor; [|constructor; [|done]].
      * apply (entry_line_indented indent (u "File: ") entry).
      * apply (entry_line_indented indent (u "    Summary: ") s).
Qed.

Lemma walk_lines_shape (w : world) (fuel : nat) :
  forall directory depth log lines log',
    0 <= depth ->
    process_directory w fuel directory depth log = (Ok lines, log') ->
    exists name rest,
      lines = (str_repeat (u "    ") depth ++ u "Directory: " ++ name) :: rest
      /\ Forall (fun l => replicate (4 * (Z.to_nat depth + 1)) 32%N `prefix_of` l)
                rest.
Proof.
  induction fuel as [|fuel IH]; intros directory depth log lines log' Hdepth;
    cbn [process_directory]; [done|].
  destruct (listdir w directory) as [names|e].
  - intros Hrun.
    destruct (process_entries_indented w (process_directory w fuel) directory
                depth (sorted names)) with (2 := Hrun) as (added & -> & Hadded);
      [|by eexists _, _].
    intros p log1 sub log2 Hsub.
    assert (Hnext : 0 <= depth + 1) by lia.
    destruct (IH _ _ _ _ _ Hnext Hsub) as (name & rest & -> & Hrest).
    replace (Z.to_nat (depth + 1)) with (Z.to_nat depth + 1)%nat in Hrest
      by lia.
    constructor.
    + rewrite str_repeat_blanks.
      replace (Z.to_nat (depth + 1)) with (Z.to_nat depth + 1)%nat by lia.
      by apply prefix_app_r.
    + eapply Forall_impl; [exact Hrest|]. intros l.
      apply blanks_prefix_shorter. lia.
  - unfold ret. intros [= <- <-]. eexists _, [_]. split; [reflexivity|].
    constructor; [|constructor].
    apply (entry_line_indented depth (u "Error reading directory: ") e).
Qed.

(** X13. In the lines of a walk at a depth that is not negative, every line
    after the first one starts with at least [4 * (depth + 1)] blanks: what
    belongs to a directory is indented deeper than its own line. *)
Theorem walk_lines_indented (w : world) (fuel : nat) (directory : str)
    (depth : Z) (log : list call) (lines : list str) (log' : list call) :
  0 <= depth ->
  process_directory w fuel directory depth log = (Ok lines, log') ->
  exists first rest,
    lines = first :: rest
    /\ Forall (fun l => replicate (Z.to_nat (4 * (depth + 1))) 32%N `prefix_of` l)
              rest.
Proof.
  intros Hdepth Hrun.
  destruct (walk_lines_shape w fuel directory depth log lines log' Hdepth Hrun)
    as (name & rest & -> & Hrest).
  replace (Z.to_nat (4 * (depth + 1))) with (4 * (Z.to_nat depth + 1))%nat
    by lia.
  by eexists _, _.
Qed.

Lemma walk_lines_indented_witness :
  exists first rest,
    fst (process_directory notes 1 (u "notes/") 0 []) = Ok (first :: rest)
    /\ Forall (fun l => replicate 4 32%N `prefix_of` l) rest.
Proof.
  destruct (process_directory notes 1 (u "notes/") 0 []) as [[lines|e] log']
    eqn:Hrun; [|vm_compute in Hrun; discriminate Hrun].
  destruct (walk_lines_indented notes 1 (u "notes/") 0 [] lines log')
    as (first & rest & -> & Hrest); [lia | exact Hrun |].
  by exists first, rest.
Defined.

(** * The index builder *)

Lemma join_first (sep first : str) (rest : list str) :
  first `prefix_of` join sep (first :: rest).
Proof.
  destruct rest as [|second rest]; cbn [join]; [done|]. by apply prefix_app_r.
Qed.

(** X14. With a collaborator that answers every call and a tree that
    nests less deep than the recursion limit, [build_library_index]
    returns a document that starts with the line of the root, which is not
    indented; for a root that cannot be listed the document is that line,
    a newline and the error line, and no call is made. *)
Theorem build_library_index_document (w : world) (fuel : nat)
    (root_directory : str) (log : list call) :
  (walkable w fuel root_directory ->
   exists doc log',
     build_library_index w fuel root_directory log = (Ok doc, log')
     /\ (u "Directory: "
         ++ match basename root_directory with
            | [] => root_directory
            | _ :: _ => basename root_directory
            end) `prefix_of` doc)
  /\ (forall e,
        listdir w root_directory = Fails e ->
        build_library_index w (S fuel) root_directory log
        = (Ok (u "Directory: "
               ++ match basename root_directory with
                  | [] => root_directory
                  | _ :: _ => basename root_directory
                  end
               ++ [newline] ++ u "    Error reading directory: " ++ e), log)).
Proof.
  unfold build_library_index, bind. split.
  - intros Hwalk.
    destruct (process_directory_walk w fuel root_directory 0 log Hwalk)
      as (out & log' & -> & _).
    eexists _, log'. split; [reflexivity|]. apply join_first.
  - intros e Hlist. cbn [process_directory]. rewrite Hlist.
    unfold ret. cbn [app join]. rewrite <- !app_assoc. reflexivity.
Qed.

Lemma build_library_index_document_witness :
  exists doc log',
    build_library_index demo 3 (u "/proj") [] = (Ok doc, log')
    /\ u "Directory: proj" `prefix_of` doc.
Proof.
  exact (proj1 (build_library_index_document demo 3 (u "/proj") [])
           demo_walkable).
Defined.

(** * Entries that are neither directories nor files *)

Lemma StronglySorted_filter_str (P : str -> Prop) `{!forall x, Decision (P x)}
    (l : list str) :
  StronglySorted str_le l -> StronglySorted str_le (filter P l).
Proof.
  induction 1 as [|x l Hl IH Hx]; [constructor|].
  rewrite filter_cons. case_decide; [|done].
  constructor; [done|].
  apply Forall_forall. intros y Hy. apply list_elem_of_filter in Hy as [_ Hy].
  rewrite Forall_forall in Hx. by apply Hx.
Qed.

Lemma sorted_filter (P : str -> Prop) `{!forall x, Decision (P x)}
    (l : list str) :
  sorted (filter P l) = filter P (sorted l).
Proof.
  apply (StronglySorted_unique str_le).
  - apply Sorted_StronglySorted; [apply _ | apply sorted_Sorted].
  - apply StronglySorted_filter_str.
    apply Sorted_StronglySorted; [apply _ | apply sorted_Sorted].
  - by rewrite !sorted_Permutation.
Qed.

Section WithoutSpecial.

Variables w w' : world.
Hypothesis Hspecial : without_special w w'.

Lemma summarize_file_special file_path log :
  summarize_file w file_path log = summarize_file w' file_path log.
Proof.
  apply (summarize_file_same w
           (World (respond w') (read_text w') (listdir w) (isdir w) (isfile w))).
  split; cbn; intros;
    [apply (special_respond _ _ Hspecial)
    | apply (special_read_text _ _ Hspecial) | done | done |].
  destruct (listdir w p); cbn; done.
Qed.

Lemma process_entries_special recurse recurse' directory indent entries :
  (forall p i log, recurse p i log = recurse' p i log) ->
  forall lines log,
    process_entries w recurse directory indent entries lines log
    = process_entries w' recurse' directory indent
        (filter (fun n => shown w directory n = true) entries) lines log.
Proof.
  intros Hrec. induction entries as [|entry rest IH]; intros lines log;
    [done|].
  rewrite filter_cons. cbn [process_entries].
  destruct (isdir w (path_join directory entry)) eqn:Hdir.
  - rewrite decide_True by (unfold shown; by rewrite Hdir).
    cbn [process_entries].
    rewrite <- (special_isdir _ _ Hspecial), Hdir.
    unfold bind. rewrite Hrec.
    destruct (recurse' _ _ log) as [[sub|e] log1]; [apply IH | done].
  - destruct (isfile w (path_join directory entry)) eqn:Hfile.
    + rewrite decide_True by (unfold shown; by rewrite Hdir, Hfile).
      cbn [process_entries].
      rewrite <- (special_isdir _ _ Hspecial), Hdir.
      rewrite <- (special_isfile _ _ Hspecial), Hfile.
      unfold bind. rewrite summarize_file_special.
      destruct (summarize_file w' _ log) as [[s|e] log1]; [apply IH | done].
    + rewrite decide_False by (unfold shown; by rewrite Hdir, Hfile).
      apply IH.
Qed.

Lemma process_directory_special fuel :
  forall directory indent log,
    process_directory w fuel directory indent log
    = process_directory w' fuel directory indent log.
Proof.
  induction fuel as [|fuel IH]; intros directory indent log;
    cbn [process_directory]; [done|].
  rewrite (special_listdir _ _ Hspecial directory).
  destruct (listdir w directory) as [names|e]; [|done].
  rewrite sorted_filter. by apply process_entries_special.
Qed.

End WithoutSpecial.

(** X15. Entries that are neither directories nor regular files leave no
    trace: a walk gives the same lines, the same calls and the same
    outcome as a walk of the tree without these entries. *)
Theorem walk_skips_special_entries (w w' : world) (fuel : nat)
    (directory : str) (indent : Z) (log : list call) :
  without_special w w' ->
  process_directory w fuel directory indent log
  = process_directory w' fuel directory indent log.
Proof. intros Hspecial. by apply process_directory_special. Qed.

Lemma demo_without_socket : without_special demo_with_socket demo.
Proof.
  split; try reflexivity.
  intros p. cbn [listdir demo demo_with_socket].
  destruct (decide (p = u "/proj")) as [-> | Hp].
  - vm_compute. reflexivity.
  - rewrite bool_decide_eq_false_2 by done.
    unfold demo_listdir. rewrite bool_decide_eq_false_2 by done.
    case_bool_decide as Hlib; [|done].
    subst p. vm_compute. reflexivity.
Qed.

Lemma walk_skips_special_entries_witness :
  process_directory demo_with_socket 3 (u "/proj") 0 []
  = process_directory demo 3 (u "/proj") 0 [].
Proof.
  exact (walk_skips_special_entries demo_with_socket demo 3 (u "/proj") 0 []
           demo_without_socket).
Defined.
